(** * fft_fr.c: discrete Fourier transforms over arrays of field elements

    A shallow embedding of [fft_fr_fast], [fft_fr_slow] and [fft_fr] of
    src/fft_fr.c, and the properties of the transform that follow from the
    code.

    - [uint64_t] values are integers of [Z]; the sums and products that
      the source computes on them ([stride * 2], [i + half],
      [i * roots_stride], [(i * j) % n], ...) are written with their
      wrap-around at [2^64], and a division by zero has no result.
    - [fr_t] is the scalar field of the curve library.  The field type and
      its operations ([fr_add], [fr_sub], [fr_mul], [fr_inv],
      [fr_from_uint64]) are parameters of the development; the laws they
      obey are hypotheses of the sections that need them.
    - A pointer [fr_t *] is an address, an integer counted in units of
      one [fr_t]; the memory is a map from addresses to field elements.
      [out], [in] and the root tables live in one memory, so that
      overlapping buffers behave as they do in C.  The memory has no
      bounds: what the code writes is a matter of the frame theorems.
    - The recursion of [fft_fr_fast] is on [n / 2]; the embedding takes a
      recursion budget and [OutOfFuel] is a result of its own, so that
      termination is a theorem and not an artefact of the model. *)

From Stdlib Require Import ZArith List Lia Bool Ring Field Znumtheory.
From Stdlib Require Import Zmod.

Local Open Scope Z_scope.

(** ** Machine integers *)

Definition uint64_modulus : Z := 2 ^ 64.

Definition u64_add (a b : Z) : Z := (a + b) mod uint64_modulus.

Definition u64_mul (a b : Z) : Z := (a * b) mod uint64_modulus.

(** ** Results of a call *)

(** [Undefined]: the call has no defined behaviour in C (here: a division
    by zero).  [OutOfFuel]: the recursion budget of the embedding was
    used up. *)
Inductive result (A : Type) : Type :=
| Done (a : A)
| Undefined
| OutOfFuel.

Arguments Done {A} a.
Arguments Undefined {A}.
Arguments OutOfFuel {A}.

Definition bind {A B : Type} (r : result A) (k : A -> result B) : result B :=
  match r with
  | Done a => k a
  | Undefined => Undefined
  | OutOfFuel => OutOfFuel
  end.

Notation "x <- c ;; k" := (bind c (fun x => k))
  (at level 61, c at next level, right associativity).

(** [a / b] on [uint64_t]: undefined for a zero divisor. *)
Definition u64_div (a b : Z) : result Z :=
  if b =? 0 then Undefined else Done (a / b).

(** ** Return codes and settings *)

(** Modelled from the spec: [C_KZG_RET] is declared in a header that is
    not under src/.  fft_fr.c returns two of its values: success, and the
    one error kind of the specification, [BadArguments]. *)
Inductive C_KZG_RET : Type :=
| C_KZG_OK
| C_KZG_BADARGS.

(** Modelled from the spec: [FFTSettings] is declared in a header that is
    not under src/.  The settings hold [max_width] and the two root
    tables; the fields are named as fft_fr.c reads them, and a table is
    the address of its first element. *)
Record FFTSettings : Type := {
  max_width : Z;
  expanded_roots_of_unity : Z;
  reverse_roots_of_unity : Z
}.

(** Modelled from the spec: the macro [CHECK] is defined in a header that
    is not under src/.  A precondition that fails "yields a BadArguments
    error and no computation is performed": the function returns
    [C_KZG_BADARGS] at once, with the state [s] as it is; otherwise the
    rest [k] of the function runs. *)
Definition CHECK {S : Type} (cond : bool) (s : S)
    (k : result (C_KZG_RET * S)) : result (C_KZG_RET * S) :=
  if cond then k else Done (C_KZG_BADARGS, s).

(** Modelled from the spec: [is_power_of_two] is declared in utility.h,
    which is not under src/.  The spec only says that the
    check holds when "n is a power of two": [n = 2^k], where [k] can only
    be the binary logarithm of [n]. *)
Definition is_power_of_two (n : Z) : bool := n =? 2 ^ Z.log2 n.

(** The recursion budget the driver gives the engine: [n] is a [uint64_t],
    so the halving of [n] is at most 64 deep. *)
Definition max_depth : nat := 64%nat.

(** ** Loops *)

(** [for (i = lo; i < lo + cnt; i++) s = body i s]. *)
Fixpoint for_loop {S : Type} (cnt : nat) (i : Z) (body : Z -> S -> S) (s : S) : S :=
  match cnt with
  | O => s
  | Datatypes.S cnt' => for_loop cnt' (i + 1) body (body i s)
  end.

(** [for (i = lo; i < hi; i++) s = body i s]. *)
Definition for_range {S : Type} (lo hi : Z) (body : Z -> S -> S) (s : S) : S :=
  for_loop (Z.to_nat (hi - lo)) lo body s.

(** ** The field of scalars, as the code sees it *)

(** The operations of the curve library that fft_fr.c calls.  Each writes
    its result through its first argument and reads the others; here they
    are functions. *)
Class Fr (fr_t : Type) : Type := {
  fr_add : fr_t -> fr_t -> fr_t;
  fr_sub : fr_t -> fr_t -> fr_t;
  fr_mul : fr_t -> fr_t -> fr_t;
  fr_inv : fr_t -> fr_t;
  fr_from_uint64 : Z -> fr_t
}.

Section Fft.

Context {fr_t : Type} {fr : Fr fr_t}.

(** ** Memory *)

Definition mem : Type := Z -> fr_t.

Definition store (m : mem) (p : Z) (v : fr_t) : mem :=
  fun q => if q =? p then v else m q.

(** ** The engine *)

(** One pass of the body of the combination loop of [fft_fr_fast]:
[[
    fr_mul(&y_times_root, &out[i + half], &roots[i * roots_stride]);
    fr_sub(&out[i + half], &out[i], &y_times_root);
    fr_add(&out[i], &out[i], &y_times_root);
]]
    The third line reads [out[i]] from the memory the second line has
    written. *)
Definition butterfly (out roots roots_stride half : Z) (i : Z) (m : mem) : mem :=
  let y_times_root :=
    fr_mul (m (out + u64_add i half)) (m (roots + u64_mul i roots_stride)) in
  let m1 := store m (out + u64_add i half) (fr_sub (m (out + i)) y_times_root) in
  store m1 (out + i) (fr_add (m1 (out + i)) y_times_root).

Fixpoint fft_fr_fast (fuel : nat) (m : mem)
    (out in_ stride roots roots_stride n : Z) : result mem :=
  match fuel with
  | O => OutOfFuel
  | Datatypes.S fuel' =>
      let half := n / 2 in
      if 0 <? half then
        m1 <- fft_fr_fast fuel' m out in_ (u64_mul stride 2)
                roots (u64_mul roots_stride 2) half ;;
        m2 <- fft_fr_fast fuel' m1 (out + half) (in_ + stride) (u64_mul stride 2)
                roots (u64_mul roots_stride 2) half ;;
        Done (for_range 0 half (butterfly out roots roots_stride half) m2)
      else
        Done (store m out (m in_))
  end.

(** ** The slow transform (the test oracle of the source) *)

(** The body of the inner loop of [fft_fr_slow]: one more term added to
    [last], for the output index [i] and the input index [j]. *)
Definition slow_term (m : mem) (in_ stride roots roots_stride n i : Z)
    (j : Z) (last : fr_t) : fr_t :=
  let jv := m (in_ + u64_mul j stride) in
  let r := m (roots + u64_mul (u64_mul i j mod n) roots_stride) in
  let v := fr_mul jv r in
  fr_add last v.

(** The body of the outer loop: [last] starts at [in[0] * roots[0]], runs
    over [j = 1 .. n-1] and is written to [out[i]]. *)
Definition slow_row (out in_ stride roots roots_stride n : Z) (i : Z) (m : mem) : mem :=
  let last := fr_mul (m in_) (m roots) in
  let last := for_range 1 n (slow_term m in_ stride roots roots_stride n i) last in
  store m (out + i) last.

Definition fft_fr_slow (m : mem) (out in_ stride roots roots_stride n : Z) : mem :=
  for_range 0 n (slow_row out in_ stride roots roots_stride n) m.

(** ** The driver *)

(** The body of the scaling loop of the inverse transform:
    [fr_mul(&out[i], &out[i], &inv_len)]. *)
Definition scale (out : Z) (inv_len : fr_t) (i : Z) (m : mem) : mem :=
  store m (out + i) (fr_mul (m (out + i)) inv_len).

(** The stride is divided out before the two checks, as in the source. *)
Definition fft_fr (m : mem) (out in_ : Z) (inverse : bool) (n : Z)
    (fs : FFTSettings) : result (C_KZG_RET * mem) :=
  stride <- u64_div (max_width fs) n ;;
  CHECK (n <=? max_width fs) m (
  CHECK (is_power_of_two n) m (
  if inverse then
    let inv_len := fr_inv (fr_from_uint64 n) in
    m1 <- fft_fr_fast max_depth m out in_ 1 (reverse_roots_of_unity fs) stride n ;;
    Done (C_KZG_OK, for_range 0 n (scale out inv_len) m1)
  else
    m1 <- fft_fr_fast max_depth m out in_ 1 (expanded_roots_of_unity fs) stride n ;;
    Done (C_KZG_OK, m1))).

(** ** Vocabulary of the specification *)

(** The constants and the derived operations of the field, from the
    operations above. *)
Definition fr_zero : fr_t := fr_from_uint64 0.
Definition fr_one : fr_t := fr_from_uint64 1.
Definition fr_negate (a : fr_t) : fr_t := fr_sub fr_zero a.
Definition fr_div (a b : fr_t) : fr_t := fr_mul a (fr_inv b).

Fixpoint fr_pow_nat (w : fr_t) (e : nat) : fr_t :=
  match e with
  | O => fr_one
  | Datatypes.S e' => fr_mul w (fr_pow_nat w e')
  end.

Definition fr_pow (w : fr_t) (e : Z) : fr_t := fr_pow_nat w (Z.to_nat e).

(** [f 0 + f 1 + ... + f (cnt - 1)]. *)
Fixpoint fr_sum (cnt : nat) (f : Z -> fr_t) : fr_t :=
  match cnt with
  | O => fr_zero
  | Datatypes.S c => fr_add (fr_sum c f) (f (Z.of_nat c))
  end.

(** The discrete Fourier transform of the sequence [x] at the root [w]:
    [x 0 * w^(i*0) + ... + x (n-1) * w^(i*(n-1))]. *)
Definition dft (w : fr_t) (x : Z -> fr_t) (n i : Z) : fr_t :=
  fr_sum (Z.to_nat n) (fun j => fr_mul (x j) (fr_pow w (i * j))).

(** The direct evaluation the specification compares the engine with:
    [out[i] = sum over j of in[j*stride] * root[((i*j) mod n) * roots_stride]]. *)
Definition direct_evaluation (m : mem) (in_ stride roots roots_stride n i : Z) : fr_t :=
  fr_sum (Z.to_nat n)
    (fun j => fr_mul (m (in_ + j * stride)) (m (roots + ((i * j) mod n) * roots_stride))).

(** [w] is a root of unity of order exactly [n]. *)
Definition primitive_root (w : fr_t) (n : Z) : Prop :=
  fr_pow w n = fr_one /\ forall k, 0 < k < n -> fr_pow w k <> fr_one.

(** The [n] entries of the table at [roots], [roots_stride] apart, are the
    powers [w^0 .. w^(n-1)]. *)
Definition powers_table (m : mem) (roots roots_stride n : Z) (w : fr_t) : Prop :=
  forall k, 0 <= k < n -> m (roots + k * roots_stride) = fr_pow w k.

(** A consistent table of the roots of unity of order [n]. *)
Definition roots_table (m : mem) (roots roots_stride n : Z) : Prop :=
  exists w, primitive_root w n /\ powers_table m roots roots_stride n w.

(** The address [a] lies in the block of [len] elements at [p]. *)
Definition within (p len a : Z) : Prop := p <= a < p + len.

(** The [n] elements read at [p], [stride] apart, all lie outside the
    block of [len] elements at [q]. *)
Definition apart (p stride n q len : Z) : Prop :=
  forall j, 0 <= j < n -> ~ within q len (p + j * stride).

(** Two memories that hold the same values outside a block. *)
Definition same_outside (p len : Z) (m m' : mem) : Prop :=
  forall a, ~ within p len a -> m' a = m a.

(** Two memories that hold the same values in a block. *)
Definition same_block (p len : Z) (m m' : mem) : Prop :=
  forall i, 0 <= i < len -> m' (p + i) = m (p + i).

(** The state of the memory after the passes [0 .. j-1]. *)
Definition butterflies_done (out roots roots_stride half : Z) (m : mem)
    (j : Z) (t : mem) : Prop :=
  (forall a, (forall i, 0 <= i < j -> a <> out + i /\ a <> out + i + half) -> t a = m a) /\
  (forall i, 0 <= i < j ->
     let y := fr_mul (m (out + i + half)) (m (roots + i * roots_stride)) in
     t (out + i + half) = fr_sub (m (out + i)) y /\
     t (out + i) = fr_add (m (out + i)) y).

(** The value the engine leaves in [out[i]] for a transform of length
    [2^k], as a function of the input sequence [x] (the element [x j] is
    [in[j * stride]]) and of the table [r] (the entry [r i] is
    [roots[i * roots_stride]]): the recursion of [fft_fr_fast] without the
    memory. *)
Fixpoint transform (k : nat) (x r : Z -> fr_t) (i : Z) : fr_t :=
  match k with
  | O => x 0
  | Datatypes.S k' =>
      let half := 2 ^ Z.of_nat k' in
      let even := transform k' (fun j => x (2 * j)) (fun j => r (2 * j)) in
      let odd := transform k' (fun j => x (2 * j + 1)) (fun j => r (2 * j)) in
      if i <? half
      then fr_add (even i) (fr_mul (odd i) (r i))
      else fr_sub (even (i - half)) (fr_mul (odd (i - half)) (r (i - half)))
  end.

(** A call of [fft_fr] the source accepts: [n] is a power of two, at most
    [max_width], and [max_width] is a [uint64_t]. *)
Definition valid_length (n : Z) (fs : FFTSettings) : Prop :=
  is_power_of_two n = true /\ n <= max_width fs /\ max_width fs < uint64_modulus.

(** Two memories that hold the same values outside a set of addresses. *)
Definition agree_outside (U : Z -> Prop) (m m' : mem) : Prop :=
  forall a, ~ U a -> m' a = m a.

(** The table the driver hands to the engine, and the one it leaves
    alone. *)
Definition roots_in_use (inverse : bool) (fs : FFTSettings) : Z :=
  if inverse then reverse_roots_of_unity fs else expanded_roots_of_unity fs.

Definition roots_unused (inverse : bool) (fs : FFTSettings) : Z :=
  if inverse then expanded_roots_of_unity fs else reverse_roots_of_unity fs.

(** Every address of the block of [len] elements at [p] lies outside the
    block of [len'] elements at [q]. *)
Definition disjoint_blocks (p len q len' : Z) : Prop :=
  forall a, within p len a -> ~ within q len' a.

(** The tables of a settings object, as the specification describes them:
    [max_width] is a power of two, the forward table holds the powers of a
    root of unity of order [max_width], and the inverse table holds the
    multiplicative inverses of the forward roots, in the same order. *)
Definition settings_tables (m : mem) (fs : FFTSettings) : Prop :=
  is_power_of_two (max_width fs) = true /\
  exists w,
    primitive_root w (max_width fs) /\
    powers_table m (expanded_roots_of_unity fs) 1 (max_width fs) w /\
    forall k, 0 <= k < max_width fs ->
      m (reverse_roots_of_unity fs + k * 1) = fr_inv (m (expanded_roots_of_unity fs + k * 1)).

(** The addresses of the table that a transform in the direction
    [inverse] does not use, in either of two settings objects. *)
Definition unused_tables (inverse : bool) (fs fs' : FFTSettings) (a : Z) : Prop :=
  within (roots_unused inverse fs) (max_width fs) a \/
  within (roots_unused inverse fs') (max_width fs') a.

(** No address of the block of [len] elements at [p] is in the set [U]. *)
Definition avoids (p len : Z) (U : Z -> Prop) : Prop :=
  forall a, within p len a -> ~ U a.

(** The laws of the field, and the embedding of the integers. *)
Class FrLaws : Prop := {
  fr_field : field_theory fr_zero fr_one fr_add fr_mul fr_sub fr_negate fr_div fr_inv eq;
  fr_from_uint64_succ : forall k, 0 <= k -> k + 1 < uint64_modulus ->
    fr_from_uint64 (k + 1) = fr_add (fr_from_uint64 k) fr_one
}.

End Fft.

Arguments mem fr_t : clear implicits.
Arguments FrLaws fr_t {fr}.

(** ** A small field to run the code on: the integers modulo 17 *)

Module F17.

Definition t : Type := Zmod 17.

#[global] Instance ops : Fr t := {|
  fr_add := Zmod.add;
  fr_sub := Zmod.sub;
  fr_mul := Zmod.mul;
  fr_inv := Zmod.inv;
  fr_from_uint64 := Zmod.of_Z 17
|}.

Definition of_Z (z : Z) : t := Zmod.of_Z 17 z.

(** A memory that holds the list [l] from address [p] on, and zero
    elsewhere. *)
Definition mem_of_list (p : Z) (l : list Z) : mem t :=
  fun a => if a <? p then of_Z 0 else of_Z (nth (Z.to_nat (a - p)) l 0).

(** A memory with the tables of a settings object of width 4 at the
    addresses 0 (the powers of 4, a root of unity of order 4 modulo 17)
    and 4 (the powers of 13, its inverse); an input of four elements at
    address 8; room for two buffers of four elements at 12 and 16; and
    the tables of a settings object of width 2 at 20 and 22. *)
Definition memory : mem t :=
  mem_of_list 0 (1 :: 4 :: 16 :: 13 ::
                 1 :: 13 :: 16 :: 4 ::
                 3 :: 1 :: 4 :: 1 ::
                 0 :: 0 :: 0 :: 0 ::
                 0 :: 0 :: 0 :: 0 ::
                 1 :: 16 ::
                 1 :: 16 :: nil).

Definition settings : FFTSettings :=
  {| max_width := 4; expanded_roots_of_unity := 0; reverse_roots_of_unity := 4 |}.

Definition small_settings : FFTSettings :=
  {| max_width := 2; expanded_roots_of_unity := 20; reverse_roots_of_unity := 22 |}.

(** The same memory with other values in the inverse table, and a
    settings object that keeps its inverse table elsewhere. *)
Definition other_memory : mem t :=
  fun a =>
    if ((4 <=? a) && (a <? 8)) || ((24 <=? a) && (a <? 28)) then of_Z 5 else memory a.

Definition other_settings : FFTSettings :=
  {| max_width := 4; expanded_roots_of_unity := 0; reverse_roots_of_unity := 24 |}.

(** The values of the memory [m] at the [n] addresses from [p] on. *)
Definition dump (m : mem t) (p : Z) (n : nat) : list Z :=
  map (fun i => Zmod.to_Z (m (p + Z.of_nat i))) (seq 0 n).

(** The return code of a call of the driver and the block of [n] elements
    it leaves at [p]. *)
Definition outcome (r : result (C_KZG_RET * mem t)) (p : Z) (n : nat)
    : result (C_KZG_RET * list Z) :=
  c <- r ;; Done (fst c, dump (snd c) p n).

(** The memory [memory] with another input, [2; 7; 1; 8], and with the
    input [2 * x + 3 * y] for the inputs [x] and [y] of the two. *)
Definition memory_y : mem t :=
  mem_of_list 0 (1 :: 4 :: 16 :: 13 ::
                 1 :: 13 :: 16 :: 4 ::
                 2 :: 7 :: 1 :: 8 :: nil).

Definition memory_z : mem t :=
  mem_of_list 0 (1 :: 4 :: 16 :: 13 ::
                 1 :: 13 :: 16 :: 4 ::
                 12 :: 6 :: 11 :: 9 :: nil).

(** The memory [memory] with other values in the second half of the
    forward table and in the buffer at 12. *)
Definition scrambled_memory : mem t :=
  mem_of_list 0 (1 :: 4 :: 7 :: 7 ::
                 1 :: 13 :: 16 :: 4 ::
                 3 :: 1 :: 4 :: 1 ::
                 9 :: 9 :: 9 :: 9 :: nil).

(** The memory a call of the engine returns. *)
Definition returned (r : result (mem t)) : mem t :=
  match r with
  | Done m => m
  | _ => memory
  end.

End F17.

(** * Properties *)

(** ** Machine integers and loops *)

Lemma uint64_modulus_eq : uint64_modulus = 18446744073709551616.
Proof. reflexivity. Qed.

Lemma u64_add_small (a b : Z) :
  0 <= a + b < uint64_modulus -> u64_add a b = a + b.
Proof. intros H. unfold u64_add. now apply Z.mod_small. Qed.

Lemma u64_mul_small (a b : Z) :
  0 <= a * b < uint64_modulus -> u64_mul a b = a * b.
Proof. intros H. unfold u64_mul. now apply Z.mod_small. Qed.

(** The invariant rule of the counted loop. *)
Lemma for_loop_invariant {S : Type} (P : Z -> S -> Prop) (body : Z -> S -> S) :
  forall (cnt : nat) (i : Z) (s : S),
    P i s ->
    (forall j t, i <= j < i + Z.of_nat cnt -> P j t -> P (j + 1) (body j t)) ->
    P (i + Z.of_nat cnt) (for_loop cnt i body s).
Proof.
  induction cnt as [|cnt IH]; intros i s Hs Hstep; simpl for_loop.
  - now replace (i + Z.of_nat 0) with i by lia.
  - replace (i + Z.of_nat (Datatypes.S cnt)) with ((i + 1) + Z.of_nat cnt) by lia.
    apply IH.
    + apply Hstep; [lia | exact Hs].
    + intros j t Hj. apply Hstep. lia.
Qed.

Lemma for_range_invariant {S : Type} (P : Z -> S -> Prop) (body : Z -> S -> S)
    (lo hi : Z) (s : S) :
  lo <= hi ->
  P lo s ->
  (forall j t, lo <= j < hi -> P j t -> P (j + 1) (body j t)) ->
  P hi (for_range lo hi body s).
Proof.
  intros Hle Hs Hstep. unfold for_range.
  replace hi with (lo + Z.of_nat (Z.to_nat (hi - lo))) at 1 by lia.
  apply for_loop_invariant; [exact Hs|].
  intros j t Hj. apply Hstep. lia.
Qed.

(** Two runs of a loop, in step. *)
Lemma for_loop_related {S : Type} (R : S -> S -> Prop) (body body' : Z -> S -> S) :
  forall (cnt : nat) (i : Z) (s s' : S),
    R s s' ->
    (forall j t t', i <= j < i + Z.of_nat cnt -> R t t' -> R (body j t) (body' j t')) ->
    R (for_loop cnt i body s) (for_loop cnt i body' s').
Proof.
  induction cnt as [|cnt IH]; intros i s s' Hs Hstep; simpl; [exact Hs|].
  apply IH.
  - apply Hstep; [lia | exact Hs].
  - intros j t t' Hj. apply Hstep. lia.
Qed.

Lemma for_range_related {S : Type} (R : S -> S -> Prop) (body body' : Z -> S -> S)
    (lo hi : Z) (s s' : S) :
  R s s' ->
  (forall j t t', lo <= j < hi -> R t t' -> R (body j t) (body' j t')) ->
  R (for_range lo hi body s) (for_range lo hi body' s').
Proof.
  intros Hs Hstep. unfold for_range. apply for_loop_related; [exact Hs|].
  intros j t t' Hj. apply Hstep. lia.
Qed.

(** ** Powers of two *)

Lemma is_power_of_two_spec (n : Z) :
  is_power_of_two n = true <-> exists k, 0 <= k /\ n = 2 ^ k.
Proof.
  unfold is_power_of_two. rewrite Z.eqb_eq. split.
  - intros H. exists (Z.log2 n). split; [apply Z.log2_nonneg | exact H].
  - intros [k [Hk ->]]. now rewrite Z.log2_pow2.
Qed.

Lemma pow2_pos (k : Z) : 0 <= k -> 0 < 2 ^ k.
Proof. intros H. apply Z.pow_pos_nonneg; lia. Qed.

Lemma pow2_of_nat_succ (k : nat) :
  2 ^ Z.of_nat (Datatypes.S k) = 2 * 2 ^ Z.of_nat k.
Proof. rewrite Nat2Z.inj_succ, Z.pow_succ_r by lia. reflexivity. Qed.

Lemma pow2_half (k : nat) : 2 ^ Z.of_nat (Datatypes.S k) / 2 = 2 ^ Z.of_nat k.
Proof.
  rewrite pow2_of_nat_succ. rewrite Z.mul_comm. apply Z.div_mul. lia.
Qed.

(** A power of two that fits a [uint64_t] has an exponent below 64. *)
Lemma pow2_uint64_exponent (k : nat) :
  2 ^ Z.of_nat k < uint64_modulus -> (k < 64)%nat.
Proof.
  intros H. unfold uint64_modulus in H.
  apply Z.pow_lt_mono_r_iff in H; lia.
Qed.

Section Code.

Context {fr_t : Type} {fr : Fr fr_t}.

Implicit Types m : mem fr_t.

(** ** Memory *)

Lemma store_same m (p : Z) (v : fr_t) : store m p v p = v.
Proof. unfold store. now rewrite Z.eqb_refl. Qed.

Lemma store_other m (p q : Z) (v : fr_t) : q <> p -> store m p v q = m q.
Proof. intros H. unfold store. apply Z.eqb_neq in H. now rewrite H. Qed.

Lemma same_outside_refl (p len : Z) m : same_outside p len m m.
Proof. intros a _. reflexivity. Qed.

Lemma same_outside_trans (p len : Z) m1 m2 m3 :
  same_outside p len m1 m2 -> same_outside p len m2 m3 -> same_outside p len m1 m3.
Proof. intros H12 H23 a Ha. rewrite (H23 a Ha). apply H12, Ha. Qed.

Lemma same_outside_widen (p len q len' : Z) m m' :
  (forall a, within p len a -> within q len' a) ->
  same_outside p len m m' -> same_outside q len' m m'.
Proof. intros Hsub H a Ha. apply H. intros Hin. apply Ha, Hsub, Hin. Qed.

Lemma same_outside_store (p len : Z) m (q : Z) (v : fr_t) :
  within p len q -> same_outside p len m (store m q v).
Proof.
  intros Hq a Ha. apply store_other. intros ->. now apply Ha.
Qed.

(** ** The combination loop *)

(** What one pass of the loop body does, when [i + half] and
    [i * roots_stride] do not wrap. *)
Lemma butterfly_eq (out roots roots_stride half i : Z) m :
  0 < half -> 0 <= i < half -> half + half <= uint64_modulus ->
  0 <= roots_stride -> half * roots_stride <= uint64_modulus ->
  butterfly out roots roots_stride half i m =
    let t := fr_mul (m (out + i + half)) (m (roots + i * roots_stride)) in
    store (store m (out + i + half) (fr_sub (m (out + i)) t))
          (out + i) (fr_add (m (out + i)) t).
Proof.
  intros Hh Hi Hn Hrs Hrsn. unfold butterfly.
  rewrite u64_add_small by lia.
  rewrite u64_mul_small by nia.
  cbv zeta. rewrite (store_other _ (out + (i + half)) (out + i)) by lia.
  now rewrite Z.add_assoc.
Qed.

Lemma butterfly_loop (out roots roots_stride half : Z) m :
  0 < half -> half + half <= uint64_modulus ->
  0 <= roots_stride -> half * roots_stride <= uint64_modulus ->
  apart roots roots_stride half out (half + half) ->
  butterflies_done out roots roots_stride half m half
    (for_range 0 half (butterfly out roots roots_stride half) m).
Proof.
  intros Hh Hn Hrs Hrsn Hapart.
  apply (for_range_invariant (butterflies_done out roots roots_stride half m)); [lia| |].
  - split; [reflexivity | intros i Hi; lia].
  - intros j t Hj [Hframe Hdone].
    rewrite butterfly_eq by (try assumption; lia). cbv zeta.
    assert (Hroot : t (roots + j * roots_stride) = m (roots + j * roots_stride)).
    { apply Hframe. intros i Hi. specialize (Hapart j Hj). unfold within in Hapart. lia. }
    assert (Hlo : t (out + j) = m (out + j)) by (apply Hframe; intros i Hi; lia).
    assert (Hhi : t (out + j + half) = m (out + j + half)) by (apply Hframe; intros i Hi; lia).
    rewrite Hroot, Hlo, Hhi. split.
    + intros a Ha.
      destruct (Ha j ltac:(lia)) as [Ha1 Ha2].
      rewrite !store_other by assumption.
      apply Hframe. intros i Hi. apply Ha. lia.
    + intros i Hi. cbv zeta.
      destruct (Z.eq_dec i j) as [->|Hne].
      * rewrite store_other by lia. rewrite !store_same. split; reflexivity.
      * rewrite !store_other by lia. apply Hdone. lia.
Qed.

(** ** The engine: base case and recursive case *)

Lemma fft_fr_fast_base (fuel : nat) m (out in_ stride roots roots_stride n : Z) :
  n / 2 <= 0 ->
  fft_fr_fast (Datatypes.S fuel) m out in_ stride roots roots_stride n =
    Done (store m out (m in_)).
Proof.
  intros H. simpl. apply Z.ltb_ge in H. now rewrite H.
Qed.

Lemma fft_fr_fast_step (fuel : nat) m (out in_ stride roots roots_stride n : Z) :
  0 < n / 2 ->
  fft_fr_fast (Datatypes.S fuel) m out in_ stride roots roots_stride n =
    (m1 <- fft_fr_fast fuel m out in_ (u64_mul stride 2)
             roots (u64_mul roots_stride 2) (n / 2) ;;
     m2 <- fft_fr_fast fuel m1 (out + n / 2) (in_ + stride) (u64_mul stride 2)
             roots (u64_mul roots_stride 2) (n / 2) ;;
     Done (for_range 0 (n / 2) (butterfly out roots roots_stride (n / 2)) m2)).
Proof.
  intros H. simpl. apply Z.ltb_lt in H. now rewrite H.
Qed.

(** ** Termination *)

Lemma half_pos_ge_2 (n : Z) : 0 < n / 2 -> 2 <= n.
Proof.
  intros H. assert (n < 2 \/ 2 <= n) as [Hn|Hn] by lia; [|lia].
  exfalso. assert (n / 2 < 1); [|lia].
  apply Z.div_lt_upper_bound; lia.
Qed.

Lemma half_nonpos_one (n : Z) : 1 <= n -> n / 2 <= 0 -> n = 1.
Proof.
  intros H1 H2. assert (n < 2 \/ 2 <= n) as [|H] by lia; [lia|].
  exfalso. assert (1 <= n / 2); [|lia]. apply Z.div_le_lower_bound; lia.
Qed.

(** The length of a recursive call is smaller than the length of its
    caller. *)
Lemma half_decreases (n : Z) : 0 < n / 2 -> 0 < n / 2 < n.
Proof.
  intros H. pose proof (half_pos_ge_2 n H).
  split; [exact H|]. apply Z.div_lt; lia.
Qed.

Lemma log2_half (n : Z) : 0 < n / 2 -> Z.log2 (n / 2) = Z.log2 n - 1.
Proof.
  intros H. pose proof (half_pos_ge_2 n H) as Hn.
  rewrite <- Z.div2_div, Z.div2_spec, Z.log2_shiftr by lia.
  assert (0 < Z.log2 n) by (apply Z.log2_pos; lia).
  lia.
Qed.

Lemma fft_fr_fast_total :
  forall (fuel : nat) (n : Z) m (out in_ stride roots roots_stride : Z),
    (Z.to_nat (Z.log2 n) < fuel)%nat ->
    exists m', fft_fr_fast fuel m out in_ stride roots roots_stride n = Done m'.
Proof.
  induction fuel as [|fuel IH]; intros n m out in_ stride roots roots_stride Hfuel; [lia|].
  destruct (Z_lt_le_dec 0 (n / 2)) as [Hhalf|Hhalf].
  - rewrite fft_fr_fast_step by assumption.
    assert (Hlog : (Z.to_nat (Z.log2 (n / 2)) < fuel)%nat).
    { rewrite log2_half by assumption.
      pose proof (Z.log2_nonneg n). pose proof (Z.log2_nonneg (n / 2)).
      rewrite log2_half in H0 by assumption. lia. }
    destruct (IH (n / 2) m out in_ (u64_mul stride 2) roots (u64_mul roots_stride 2) Hlog)
      as [m1 ->].
    cbn [bind].
    destruct (IH (n / 2) m1 (out + n / 2) (in_ + stride) (u64_mul stride 2) roots
                (u64_mul roots_stride 2) Hlog) as [m2 ->].
    simpl. eauto.
  - rewrite fft_fr_fast_base by assumption. eauto.
Qed.

(** More fuel than needed does not change the result. *)
Lemma fft_fr_fast_fuel_mono :
  forall (fuel fuel' : nat) m (out in_ stride roots roots_stride n : Z) m',
    (fuel <= fuel')%nat ->
    fft_fr_fast fuel m out in_ stride roots roots_stride n = Done m' ->
    fft_fr_fast fuel' m out in_ stride roots roots_stride n = Done m'.
Proof.
  induction fuel as [|fuel IH]; intros fuel' m out in_ stride roots roots_stride n m' Hle H;
    [discriminate|].
  destruct fuel' as [|fuel']; [lia|].
  destruct (Z_lt_le_dec 0 (n / 2)) as [Hhalf|Hhalf].
  - rewrite fft_fr_fast_step in * by assumption.
    destruct (fft_fr_fast fuel m out in_ _ roots _ (n / 2)) as [m1| |] eqn:E1;
      try discriminate.
    rewrite (IH fuel' _ _ _ _ _ _ _ m1 ltac:(lia) E1). cbn [bind] in *.
    destruct (fft_fr_fast fuel m1 (out + n / 2) _ _ roots _ (n / 2)) as [m2| |] eqn:E2;
      try discriminate.
    rewrite (IH fuel' _ _ _ _ _ _ _ m2 ltac:(lia) E2). exact H.
  - rewrite fft_fr_fast_base in * by assumption. exact H.
Qed.

(** ** Frame: the engine writes the block of [n] elements at [out] only *)

Lemma butterfly_frame (out roots roots_stride half i : Z) m :
  0 <= i < half -> half + half <= uint64_modulus ->
  same_outside out (half + half) m (butterfly out roots roots_stride half i m).
Proof.
  intros Hi Hn a Ha. unfold butterfly. cbv zeta.
  rewrite u64_add_small by lia.
  unfold within in Ha. rewrite !store_other by lia. reflexivity.
Qed.

Lemma butterfly_loop_frame (out roots roots_stride half : Z) m :
  0 <= half -> half + half <= uint64_modulus ->
  same_outside out (half + half) m
    (for_range 0 half (butterfly out roots roots_stride half) m).
Proof.
  intros Hh Hn.
  apply (for_range_invariant (fun _ t => same_outside out (half + half) m t)); [lia| |].
  - apply same_outside_refl.
  - intros j t Hj Ht. eapply same_outside_trans; [exact Ht|].
    now apply butterfly_frame.
Qed.

Lemma fft_fr_fast_frame :
  forall (fuel : nat) (n : Z) m (out in_ stride roots roots_stride : Z) m',
    1 <= n < uint64_modulus ->
    fft_fr_fast fuel m out in_ stride roots roots_stride n = Done m' ->
    same_outside out n m m'.
Proof.
  induction fuel as [|fuel IH]; intros n m out in_ stride roots roots_stride m' Hn H;
    [discriminate|].
  destruct (Z_lt_le_dec 0 (n / 2)) as [Hhalf|Hhalf].
  - rewrite fft_fr_fast_step in H by assumption.
    pose proof (half_decreases n Hhalf) as Hdec.
    assert (Hsum : n / 2 + n / 2 <= n).
    { pose proof (Z.mul_div_le n 2 ltac:(lia)). lia. }
    destruct (fft_fr_fast fuel m out in_ _ roots _ (n / 2)) as [m1| |] eqn:E1;
      try discriminate.
    cbn [bind] in H.
    destruct (fft_fr_fast fuel m1 (out + n / 2) _ _ roots _ (n / 2)) as [m2| |] eqn:E2;
      try discriminate.
    cbn [bind] in H. injection H as <-.
    apply IH in E1; [|lia]. apply IH in E2; [|lia].
    eapply same_outside_trans.
    { eapply same_outside_widen; [|exact E1]. unfold within. intros; lia. }
    eapply same_outside_trans.
    { eapply same_outside_widen; [|exact E2]. unfold within. intros; lia. }
    eapply same_outside_widen; [|apply butterfly_loop_frame; lia].
    unfold within. intros; lia.
  - rewrite fft_fr_fast_base in H by assumption. injection H as <-.
    apply same_outside_store. unfold within. lia.
Qed.

(** ** The engine computes [transform] *)

Lemma transform_ext :
  forall (k : nat) (x x' r r' : Z -> fr_t) (i : Z),
    (forall j, 0 <= j < 2 ^ Z.of_nat k -> x j = x' j) ->
    (forall j, 0 <= j < 2 ^ Z.of_nat k -> r j = r' j) ->
    0 <= i < 2 ^ Z.of_nat k ->
    transform k x r i = transform k x' r' i.
Proof.
  induction k as [|k IH]; intros x x' r r' i Hx Hr Hi.
  - simpl. apply Hx. simpl. lia.
  - rewrite pow2_of_nat_succ in *. pose proof (pow2_pos (Z.of_nat k) ltac:(lia)) as Hpos.
    cbn [transform]. cbv zeta.
    destruct (i <? 2 ^ Z.of_nat k) eqn:E.
    + apply Z.ltb_lt in E.
      rewrite (IH (fun j => x (2 * j)) (fun j => x' (2 * j))
                  (fun j => r (2 * j)) (fun j => r' (2 * j)) i)
        by (try (intros j Hj; first [apply Hx | apply Hr]); lia).
      rewrite (IH (fun j => x (2 * j + 1)) (fun j => x' (2 * j + 1))
                  (fun j => r (2 * j)) (fun j => r' (2 * j)) i)
        by (try (intros j Hj; first [apply Hx | apply Hr]); lia).
      rewrite (Hr i) by lia. reflexivity.
    + apply Z.ltb_ge in E.
      rewrite (IH (fun j => x (2 * j)) (fun j => x' (2 * j))
                  (fun j => r (2 * j)) (fun j => r' (2 * j)) (i - 2 ^ Z.of_nat k))
        by (try (intros j Hj; first [apply Hx | apply Hr]); lia).
      rewrite (IH (fun j => x (2 * j + 1)) (fun j => x' (2 * j + 1))
                  (fun j => r (2 * j)) (fun j => r' (2 * j)) (i - 2 ^ Z.of_nat k))
        by (try (intros j Hj; first [apply Hx | apply Hr]); lia).
      rewrite (Hr (i - 2 ^ Z.of_nat k)) by lia. reflexivity.
Qed.

Lemma apart_outside (p stride n q len : Z) m m' (j : Z) :
  apart p stride n q len -> same_outside q len m m' -> 0 <= j < n ->
  m' (p + j * stride) = m (p + j * stride).
Proof. intros Hap Hsame Hj. apply Hsame, Hap, Hj. Qed.

Lemma fft_fr_fast_transform :
  forall (k fuel : nat) m (out in_ stride roots roots_stride : Z),
    (k < fuel)%nat ->
    2 ^ Z.of_nat k < uint64_modulus ->
    0 <= stride -> 2 ^ Z.of_nat k * stride < uint64_modulus ->
    0 <= roots_stride -> 2 ^ Z.of_nat k * roots_stride < uint64_modulus ->
    apart in_ stride (2 ^ Z.of_nat k) out (2 ^ Z.of_nat k) ->
    apart roots roots_stride (2 ^ Z.of_nat k) out (2 ^ Z.of_nat k) ->
    exists m',
      fft_fr_fast fuel m out in_ stride roots roots_stride (2 ^ Z.of_nat k) = Done m' /\
      same_outside out (2 ^ Z.of_nat k) m m' /\
      forall i, 0 <= i < 2 ^ Z.of_nat k ->
        m' (out + i) =
          transform k (fun j => m (in_ + j * stride))
                      (fun j => m (roots + j * roots_stride)) i.
Proof.
  induction k as [|k IH];
    intros fuel m out in_ stride roots roots_stride Hfuel Hn Hs Hns Hrs Hnrs Hin Hroots;
    (destruct fuel as [|fuel]; [lia|]).
  - change (2 ^ Z.of_nat 0) with 1 in *.
    rewrite fft_fr_fast_base by (now compute).
    eexists. split; [reflexivity|]. split.
    + apply same_outside_store. unfold within. lia.
    + intros i Hi. replace i with 0 by lia.
      rewrite Z.add_0_r, store_same. simpl. now rewrite Z.add_0_r.
  - pose proof (pow2_pos (Z.of_nat k) ltac:(lia)) as Hpos.
    rewrite fft_fr_fast_step by (rewrite pow2_half; lia).
    rewrite pow2_half. rewrite pow2_of_nat_succ in *.
    set (h := 2 ^ Z.of_nat k) in *.
    rewrite !u64_mul_small by nia.
    destruct (IH fuel m out in_ (stride * 2) roots (roots_stride * 2))
      as [m1 [E1 [F1 V1]]]; try lia.
    { intros j Hj. specialize (Hin (2 * j) ltac:(lia)).
      replace (in_ + j * (stride * 2)) with (in_ + 2 * j * stride) by lia.
      unfold within in *. lia. }
    { intros j Hj. specialize (Hroots (2 * j) ltac:(lia)).
      replace (roots + j * (roots_stride * 2)) with (roots + 2 * j * roots_stride) by lia.
      unfold within in *. lia. }
    fold h in E1, F1, V1. rewrite E1. cbn [bind].
    destruct (IH fuel m1 (out + h) (in_ + stride) (stride * 2) roots (roots_stride * 2))
      as [m2 [E2 [F2 V2]]]; try lia.
    { intros j Hj. specialize (Hin (2 * j + 1) ltac:(lia)).
      replace (in_ + stride + j * (stride * 2)) with (in_ + (2 * j + 1) * stride) by lia.
      unfold within in *. fold h. lia. }
    { intros j Hj. specialize (Hroots (2 * j) ltac:(lia)).
      replace (roots + j * (roots_stride * 2)) with (roots + 2 * j * roots_stride) by lia.
      unfold within in *. fold h. lia. }
    fold h in E2, F2, V2. rewrite E2. cbn [bind].
    eexists. split; [reflexivity|].
    assert (Hm1 : forall a, ~ within out (2 * h) a -> m1 a = m a).
    { intros a Ha. apply F1. unfold within in *. lia. }
    assert (Hm2 : forall a, ~ within out (2 * h) a -> m2 a = m a).
    { intros a Ha. rewrite F2 by (unfold within in *; lia). now apply Hm1. }
    destruct (butterfly_loop out roots roots_stride h m2) as [Fb Vb]; try lia.
    { intros j Hj. specialize (Hroots j ltac:(lia)). unfold within in *. lia. }
    split.
    + intros a Ha. rewrite Fb by (intros i Hi; unfold within in Ha; lia).
      now apply Hm2.
    + intros i Hi. cbn [transform]. cbv zeta. fold h.
      assert (Heven : forall i, 0 <= i < h ->
                m2 (out + i) =
                  transform k (fun j => m (in_ + 2 * j * stride))
                              (fun j => m (roots + 2 * j * roots_stride)) i).
      { intros i' Hi'. rewrite F2 by (unfold within; lia). rewrite V1 by lia.
        apply transform_ext; [| |exact Hi'];
          intros j Hj; f_equal; lia. }
      assert (Hodd : forall i, 0 <= i < h ->
                m2 (out + i + h) =
                  transform k (fun j => m (in_ + (2 * j + 1) * stride))
                              (fun j => m (roots + 2 * j * roots_stride)) i).
      { intros i' Hi'. replace (out + i' + h) with (out + h + i') by lia.
        rewrite V2 by lia.
        apply transform_ext; [| |exact Hi']; intros j Hj.
        - replace (in_ + stride + j * (stride * 2)) with (in_ + (2 * j + 1) * stride) by lia.
          apply Hm1, Hin. lia.
        - replace (roots + j * (roots_stride * 2)) with (roots + 2 * j * roots_stride) by lia.
          apply Hm1, Hroots. lia. }
      assert (Hroot : forall i, 0 <= i < h ->
                m2 (roots + i * roots_stride) = m (roots + i * roots_stride)).
      { intros i' Hi'. apply Hm2, Hroots. lia. }
      destruct (i <? h) eqn:E.
      * apply Z.ltb_lt in E.
        destruct (Vb i ltac:(lia)) as [_ ->].
        rewrite Heven, Hodd, Hroot by lia. reflexivity.
      * apply Z.ltb_ge in E.
        replace (out + i) with (out + (i - h) + h) by lia.
        destruct (Vb (i - h) ltac:(lia)) as [-> _].
        rewrite Heven, Hodd, Hroot by lia. reflexivity.
Qed.

(** ** The driver *)

Lemma scale_loop (out n : Z) (c : fr_t) m :
  0 <= n ->
  same_outside out n m (for_range 0 n (scale out c) m) /\
  forall i, 0 <= i < n ->
    for_range 0 n (scale out c) m (out + i) = fr_mul (m (out + i)) c.
Proof.
  intros Hn.
  enough (same_outside out n m (for_range 0 n (scale out c) m) /\
          (forall i, n <= i < n ->
             for_range 0 n (scale out c) m (out + i) = m (out + i)) /\
          (forall i, 0 <= i < n ->
             for_range 0 n (scale out c) m (out + i) = fr_mul (m (out + i)) c))
    as [H1 [_ H2]] by (split; assumption).
  apply (for_range_invariant
           (fun j t => same_outside out n m t /\
                       (forall i, j <= i < n -> t (out + i) = m (out + i)) /\
                       (forall i, 0 <= i < j -> t (out + i) = fr_mul (m (out + i)) c))
           (scale out c) 0 n m Hn).
  - split; [apply same_outside_refl|]. split; [reflexivity | intros; lia].
  - intros j t Hj [Hframe [Hrest Hdone]]. unfold scale. split; [|split].
    + eapply same_outside_trans; [exact Hframe|].
      apply same_outside_store. unfold within. lia.
    + intros i Hi. rewrite store_other by lia. apply Hrest. lia.
    + intros i Hi. destruct (Z.eq_dec i j) as [->|Hne].
      * rewrite store_same. rewrite Hrest by lia. reflexivity.
      * rewrite store_other by lia. apply Hdone. lia.
Qed.

Lemma valid_length_pow2 (n : Z) (fs : FFTSettings) :
  valid_length n fs ->
  exists k : nat, n = 2 ^ Z.of_nat k /\ (k < 64)%nat /\ 1 <= n < uint64_modulus.
Proof.
  intros [Hp [Hle Hmax]]. apply is_power_of_two_spec in Hp. destruct Hp as [k [Hk ->]].
  exists (Z.to_nat k). rewrite Z2Nat.id by exact Hk.
  pose proof (pow2_pos k Hk). split; [reflexivity|]. split; [|lia].
  apply pow2_uint64_exponent. rewrite Z2Nat.id by exact Hk. lia.
Qed.

Lemma log2_below_max_depth (n : Z) :
  n < uint64_modulus -> (Z.to_nat (Z.log2 n) < max_depth)%nat.
Proof.
  intros H. unfold max_depth.
  destruct (Z_le_gt_dec n 0) as [Hn|Hn].
  - rewrite Z.log2_nonpos by exact Hn. simpl. lia.
  - assert (Z.log2 n < 64); [|lia].
    apply Z.log2_lt_pow2; [lia | exact H].
Qed.

(** On a valid length, the checks pass and the driver runs the engine with
    the stride [max_width / n]. *)
Lemma fft_fr_valid m (out in_ : Z) (inverse : bool) (n : Z) (fs : FFTSettings) :
  valid_length n fs ->
  fft_fr m out in_ inverse n fs =
    if inverse then
      m1 <- fft_fr_fast max_depth m out in_ 1 (reverse_roots_of_unity fs)
              (max_width fs / n) n ;;
      Done (C_KZG_OK, for_range 0 n (scale out (fr_inv (fr_from_uint64 n))) m1)
    else
      m1 <- fft_fr_fast max_depth m out in_ 1 (expanded_roots_of_unity fs)
              (max_width fs / n) n ;;
      Done (C_KZG_OK, m1).
Proof.
  intros Hv. destruct (valid_length_pow2 n fs Hv) as [k [_ [_ Hn]]].
  destruct Hv as [Hp [Hle Hmax]].
  unfold fft_fr, u64_div, CHECK.
  destruct (n =? 0) eqn:E0; [apply Z.eqb_eq in E0; lia|].
  cbn [bind]. apply Z.leb_le in Hle. rewrite Hle, Hp. reflexivity.
Qed.

(** A zero length: the division that derives the stride comes before the
    checks. *)
Lemma fft_fr_zero m (out in_ : Z) (inverse : bool) (fs : FFTSettings) :
  fft_fr m out in_ inverse 0 fs = Undefined.
Proof. reflexivity. Qed.

(** A positive length that is refused: nothing is written. *)
Lemma fft_fr_refused m (out in_ : Z) (inverse : bool) (n : Z) (fs : FFTSettings) :
  n <> 0 -> (max_width fs < n \/ is_power_of_two n = false) ->
  fft_fr m out in_ inverse n fs = Done (C_KZG_BADARGS, m).
Proof.
  intros Hn H. unfold fft_fr, u64_div, CHECK.
  apply Z.eqb_neq in Hn. rewrite Hn. cbn [bind].
  destruct (n <=? max_width fs) eqn:E; [|reflexivity].
  apply Z.leb_le in E. destruct H as [H|H]; [lia|]. now rewrite H.
Qed.

Lemma fft_fr_accepted m (out in_ : Z) (inverse : bool) (n : Z) (fs : FFTSettings) :
  valid_length n fs ->
  exists m', fft_fr m out in_ inverse n fs = Done (C_KZG_OK, m').
Proof.
  intros Hv. rewrite fft_fr_valid by exact Hv.
  destruct (valid_length_pow2 n fs Hv) as [k [_ [_ Hn]]].
  pose proof (log2_below_max_depth n ltac:(lia)) as Hlog.
  destruct inverse.
  - destruct (fft_fr_fast_total max_depth n m out in_ 1 (reverse_roots_of_unity fs)
                (max_width fs / n) Hlog) as [m1 ->].
    cbn [bind]. eauto.
  - destruct (fft_fr_fast_total max_depth n m out in_ 1 (expanded_roots_of_unity fs)
                (max_width fs / n) Hlog) as [m1 ->].
    cbn [bind]. eauto.
Qed.

(** The driver on a valid length, with the buffers apart: the output is
    [transform] of the input and of the table in use, scaled for the
    inverse direction. *)
Lemma fft_fr_transform (k : nat) m (out in_ : Z) (inverse : bool) (fs : FFTSettings) :
  valid_length (2 ^ Z.of_nat k) fs ->
  apart in_ 1 (2 ^ Z.of_nat k) out (2 ^ Z.of_nat k) ->
  apart (roots_in_use inverse fs) (max_width fs / 2 ^ Z.of_nat k) (2 ^ Z.of_nat k)
        out (2 ^ Z.of_nat k) ->
  exists m',
    fft_fr m out in_ inverse (2 ^ Z.of_nat k) fs = Done (C_KZG_OK, m') /\
    same_outside out (2 ^ Z.of_nat k) m m' /\
    forall i, 0 <= i < 2 ^ Z.of_nat k ->
      m' (out + i) =
        let v := transform k (fun j => m (in_ + j * 1))
                   (fun j => m (roots_in_use inverse fs
                                + j * (max_width fs / 2 ^ Z.of_nat k))) i in
        if inverse then fr_mul v (fr_inv (fr_from_uint64 (2 ^ Z.of_nat k))) else v.
Proof.
  intros Hv Hin Hroots. rewrite fft_fr_valid by exact Hv.
  destruct (valid_length_pow2 _ fs Hv) as [k' [Hk' [_ Hn]]].
  destruct Hv as [_ [Hle Hmax]].
  pose proof (pow2_uint64_exponent k ltac:(lia)) as Hk.
  assert (Hstride : 0 <= max_width fs / 2 ^ Z.of_nat k) by (apply Z.div_pos; lia).
  assert (Hprod : 2 ^ Z.of_nat k * (max_width fs / 2 ^ Z.of_nat k) < uint64_modulus).
  { pose proof (Z.mul_div_le (max_width fs) (2 ^ Z.of_nat k) ltac:(lia)). lia. }
  destruct (fft_fr_fast_transform k max_depth m out in_ 1 (roots_in_use inverse fs)
              (max_width fs / 2 ^ Z.of_nat k))
    as [m1 [E1 [F1 V1]]]; try assumption; try (unfold max_depth; lia).
  unfold roots_in_use in *. destruct inverse; rewrite E1; cbn [bind].
  - destruct (scale_loop out (2 ^ Z.of_nat k) (fr_inv (fr_from_uint64 (2 ^ Z.of_nat k))) m1)
      as [Fs Vs]; [lia|].
    eexists. split; [reflexivity|]. split.
    + eapply same_outside_trans; eassumption.
    + intros i Hi. cbv zeta. rewrite Vs, V1 by exact Hi. reflexivity.
  - eexists. split; [reflexivity|]. split; [exact F1|].
    intros i Hi. cbv zeta. now apply V1.
Qed.

(** ** Two runs that differ outside the addresses the code reads *)

Lemma agree_outside_store (U : Z -> Prop) m m' (p : Z) (v : fr_t) :
  agree_outside U m m' -> agree_outside U (store m p v) (store m' p v).
Proof.
  intros H a Ha. unfold store. destruct (a =? p); [reflexivity | now apply H].
Qed.

Lemma butterfly_agree (U : Z -> Prop) (out roots roots_stride half i : Z) m m' :
  0 <= i < half -> half + half <= uint64_modulus ->
  0 <= roots_stride -> half * roots_stride <= uint64_modulus ->
  (forall j, 0 <= j < half -> ~ U (roots + j * roots_stride)) ->
  (forall j, 0 <= j < half + half -> ~ U (out + j)) ->
  agree_outside U m m' ->
  agree_outside U (butterfly out roots roots_stride half i m)
                  (butterfly out roots roots_stride half i m').
Proof.
  intros Hi Hn Hrs Hnrs Hroots Hout H.
  rewrite !butterfly_eq by (try assumption; lia). cbv zeta.
  rewrite (H (out + i)) by (apply Hout; lia).
  replace (out + i + half) with (out + (i + half)) by lia.
  rewrite (H (out + (i + half))) by (apply Hout; lia).
  rewrite (H (roots + i * roots_stride)) by (apply Hroots; lia).
  now do 2 apply agree_outside_store.
Qed.

Lemma fft_fr_fast_agree (U : Z -> Prop) :
  forall (fuel : nat) (n : Z) m m' (out in_ stride roots roots_stride : Z) m1,
    1 <= n < uint64_modulus ->
    0 <= stride -> n * stride < uint64_modulus ->
    0 <= roots_stride -> n * roots_stride < uint64_modulus ->
    (forall j, 0 <= j < n -> ~ U (in_ + j * stride)) ->
    (forall j, 0 <= j < n -> ~ U (roots + j * roots_stride)) ->
    (forall j, 0 <= j < n -> ~ U (out + j)) ->
    agree_outside U m m' ->
    fft_fr_fast fuel m out in_ stride roots roots_stride n = Done m1 ->
    exists m1',
      fft_fr_fast fuel m' out in_ stride roots roots_stride n = Done m1' /\
      agree_outside U m1 m1'.
Proof.
  induction fuel as [|fuel IH];
    intros n m m' out in_ stride roots roots_stride m3 Hn Hs Hns Hrs Hnrs Hin Hroots Hout
           Hagree H; [discriminate|].
  destruct (Z_lt_le_dec 0 (n / 2)) as [Hhalf|Hhalf].
  - rewrite fft_fr_fast_step in * by assumption.
    pose proof (half_decreases n Hhalf) as Hdec.
    assert (Hsum : n / 2 + n / 2 <= n).
    { pose proof (Z.mul_div_le n 2 ltac:(lia)). lia. }
    set (h := n / 2) in *.
    rewrite !u64_mul_small in * by nia.
    destruct (fft_fr_fast fuel m out in_ _ roots _ h) as [m1| |] eqn:E1; try discriminate.
    cbn [bind] in H.
    destruct (fft_fr_fast fuel m1 (out + h) _ _ roots _ h) as [m2| |] eqn:E2;
      try discriminate.
    cbn [bind] in H. injection H as <-.
    destruct (IH h m m' out in_ (stride * 2) roots (roots_stride * 2) m1)
      as [m1' [E1' A1]]; try assumption; try nia.
    { intros j Hj. replace (in_ + j * (stride * 2)) with (in_ + 2 * j * stride) by lia.
      apply Hin. lia. }
    { intros j Hj.
      replace (roots + j * (roots_stride * 2)) with (roots + 2 * j * roots_stride) by lia.
      apply Hroots. lia. }
    { intros j Hj. apply Hout. lia. }
    destruct (IH h m1 m1' (out + h) (in_ + stride) (stride * 2) roots (roots_stride * 2) m2)
      as [m2' [E2' A2]]; try assumption; try nia.
    { intros j Hj.
      replace (in_ + stride + j * (stride * 2)) with (in_ + (2 * j + 1) * stride) by lia.
      apply Hin. lia. }
    { intros j Hj.
      replace (roots + j * (roots_stride * 2)) with (roots + 2 * j * roots_stride) by lia.
      apply Hroots. lia. }
    { intros j Hj. replace (out + h + j) with (out + (h + j)) by lia. apply Hout. lia. }
    rewrite E1'. cbn [bind]. rewrite E2'. cbn [bind].
    eexists. split; [reflexivity|].
    apply (for_range_related (agree_outside U)); [exact A2|].
    intros j t t' Hj Ht. apply butterfly_agree; try assumption; try lia; try nia.
    + intros j' Hj'. apply Hroots. lia.
    + intros j' Hj'. apply Hout. lia.
  - assert (n = 1) by (apply half_nonpos_one; lia).
    subst n. rewrite fft_fr_fast_base in * by assumption. injection H as <-.
    eexists. split; [reflexivity|].
    specialize (Hin 0 ltac:(lia)). rewrite Z.add_0_r in Hin.
    rewrite (Hagree in_ Hin). now apply agree_outside_store.
Qed.

End Code.

(** ** Algebra of the transform *)

Section Algebra.

Context {fr_t : Type} {fr : Fr fr_t} {laws : FrLaws fr_t}.

Add Field fr_field_structure : fr_field.

Implicit Types w u a b c : fr_t.

Lemma fr_mul_nonzero a b : a <> fr_zero -> fr_mul a b = fr_zero -> b = fr_zero.
Proof.
  intros Ha Hab.
  assert (H : b = fr_mul (fr_inv a) (fr_mul a b)) by (field; exact Ha).
  rewrite H, Hab. ring.
Qed.

Lemma fr_sub_zero_eq a b : fr_sub a b = fr_zero -> a = b.
Proof.
  intros H. assert (E : a = fr_add (fr_sub a b) b) by ring.
  rewrite E, H. ring.
Qed.

Lemma fr_one_nonzero : fr_one <> fr_zero.
Proof. exact (F_1_neq_0 fr_field). Qed.

(** *** Powers *)

Lemma fr_pow_nat_add w (a b : nat) :
  fr_pow_nat w (a + b) = fr_mul (fr_pow_nat w a) (fr_pow_nat w b).
Proof.
  induction a as [|a IH]; simpl; [ring|]. rewrite IH. ring.
Qed.

Lemma fr_pow_nat_one (a : nat) : fr_pow_nat fr_one a = fr_one.
Proof. induction a as [|a IH]; simpl; [reflexivity|]. rewrite IH. ring. Qed.

Lemma fr_pow_nat_mul w (a b : nat) :
  fr_pow_nat w (a * b) = fr_pow_nat (fr_pow_nat w a) b.
Proof.
  induction b as [|b IH].
  - rewrite Nat.mul_0_r. reflexivity.
  - rewrite Nat.mul_succ_r, Nat.add_comm, fr_pow_nat_add, IH. reflexivity.
Qed.

Lemma fr_pow_nat_mul_base w u (a : nat) :
  fr_pow_nat (fr_mul w u) a = fr_mul (fr_pow_nat w a) (fr_pow_nat u a).
Proof. induction a as [|a IH]; simpl; [ring|]. rewrite IH. ring. Qed.

Lemma fr_pow_0 w : fr_pow w 0 = fr_one.
Proof. reflexivity. Qed.

Lemma fr_pow_1 w : fr_pow w 1 = w.
Proof. unfold fr_pow. simpl. ring. Qed.

Lemma fr_pow_add w (a b : Z) :
  0 <= a -> 0 <= b -> fr_pow w (a + b) = fr_mul (fr_pow w a) (fr_pow w b).
Proof.
  intros Ha Hb. unfold fr_pow. rewrite Z2Nat.inj_add by assumption.
  apply fr_pow_nat_add.
Qed.

Lemma fr_pow_mul w (a b : Z) :
  0 <= a -> 0 <= b -> fr_pow w (a * b) = fr_pow (fr_pow w a) b.
Proof.
  intros Ha Hb. unfold fr_pow. rewrite Z2Nat.inj_mul by assumption.
  apply fr_pow_nat_mul.
Qed.

Lemma fr_pow_one (a : Z) : fr_pow fr_one a = fr_one.
Proof. apply fr_pow_nat_one. Qed.

Lemma fr_pow_mul_base w u (a : Z) :
  fr_pow (fr_mul w u) a = fr_mul (fr_pow w a) (fr_pow u a).
Proof. apply fr_pow_nat_mul_base. Qed.

Lemma fr_pow_square w (a : Z) : 0 <= a -> fr_pow (fr_mul w w) a = fr_pow w (2 * a).
Proof.
  intros Ha. rewrite fr_pow_mul_base.
  replace (2 * a) with (a + a) by lia. now rewrite fr_pow_add.
Qed.

(** Exponents count modulo the order. *)
Lemma fr_pow_mod w (n e : Z) :
  0 < n -> 0 <= e -> fr_pow w n = fr_one -> fr_pow w (e mod n) = fr_pow w e.
Proof.
  intros Hn He Hw.
  pose proof (Z.mod_pos_bound e n Hn) as Hmod.
  assert (Hq : 0 <= e / n) by (apply Z.div_pos; lia).
  rewrite (Z.div_mod e n) at 2 by lia.
  rewrite fr_pow_add by nia. rewrite fr_pow_mul by lia.
  rewrite Hw, fr_pow_one. ring.
Qed.

(** *** Roots of unity *)

Lemma primitive_root_half w (h : Z) :
  0 < h -> primitive_root w (2 * h) -> fr_pow w h = fr_negate fr_one.
Proof.
  intros Hh [Hone Hprim].
  assert (Hsq : fr_mul (fr_sub (fr_pow w h) fr_one) (fr_add (fr_pow w h) fr_one) = fr_zero).
  { replace (2 * h) with (h + h) in Hone by lia. rewrite fr_pow_add in Hone by lia.
    transitivity (fr_sub (fr_mul (fr_pow w h) (fr_pow w h)) fr_one); [ring|].
    rewrite Hone. ring. }
  apply fr_mul_nonzero in Hsq.
  - assert (E : fr_pow w h = fr_sub (fr_add (fr_pow w h) fr_one) fr_one) by ring.
    rewrite E, Hsq. ring.
  - intros E. apply fr_sub_zero_eq in E. apply (Hprim h); [lia | exact E].
Qed.

Lemma primitive_root_square w (h : Z) :
  0 < h -> primitive_root w (2 * h) -> primitive_root (fr_mul w w) h.
Proof.
  intros Hh [Hone Hprim]. split.
  - rewrite fr_pow_square by lia. exact Hone.
  - intros k Hk. rewrite fr_pow_square by lia. apply Hprim. lia.
Qed.

(** The root of the sub-table: [w^c] has order [n] when [w] has order
    [c * n]. *)
Lemma primitive_root_power w (c n : Z) :
  0 < c -> 0 < n -> primitive_root w (c * n) -> primitive_root (fr_pow w c) n.
Proof.
  intros Hc Hn [Hone Hprim]. split.
  - rewrite <- fr_pow_mul by lia. exact Hone.
  - intros k Hk. rewrite <- fr_pow_mul by lia. apply Hprim. nia.
Qed.

(** *** Sums *)

Lemma fr_sum_ext (cnt : nat) (f g : Z -> fr_t) :
  (forall j, 0 <= j < Z.of_nat cnt -> f j = g j) -> fr_sum cnt f = fr_sum cnt g.
Proof.
  induction cnt as [|cnt IH]; intros H; simpl; [reflexivity|].
  rewrite IH by (intros j Hj; apply H; lia). rewrite H by lia. reflexivity.
Qed.

Lemma fr_sum_zero (cnt : nat) : fr_sum cnt (fun _ => fr_zero) = fr_zero.
Proof. induction cnt as [|cnt IH]; simpl; [reflexivity|]. rewrite IH. ring. Qed.

Lemma fr_sum_add (cnt : nat) (f g : Z -> fr_t) :
  fr_sum cnt (fun j => fr_add (f j) (g j)) = fr_add (fr_sum cnt f) (fr_sum cnt g).
Proof. induction cnt as [|cnt IH]; simpl; [ring|]. rewrite IH. ring. Qed.

Lemma fr_sum_scale_l (cnt : nat) c (f : Z -> fr_t) :
  fr_sum cnt (fun j => fr_mul c (f j)) = fr_mul c (fr_sum cnt f).
Proof. induction cnt as [|cnt IH]; simpl; [ring|]. rewrite IH. ring. Qed.

Lemma fr_sum_scale_r (cnt : nat) c (f : Z -> fr_t) :
  fr_sum cnt (fun j => fr_mul (f j) c) = fr_mul (fr_sum cnt f) c.
Proof. induction cnt as [|cnt IH]; simpl; [ring|]. rewrite IH. ring. Qed.

(** The even and the odd terms of a sum of even length. *)
Lemma fr_sum_parity (h : nat) (f : Z -> fr_t) :
  fr_sum (h + h) f =
    fr_add (fr_sum h (fun j => f (2 * j))) (fr_sum h (fun j => f (2 * j + 1))).
Proof.
  induction h as [|h IH]; [simpl; ring|].
  replace (Datatypes.S h + Datatypes.S h)%nat with (Datatypes.S (Datatypes.S (h + h))) by lia.
  cbn [fr_sum]. rewrite IH.
  replace (Z.of_nat (h + h)) with (2 * Z.of_nat h) by lia.
  replace (Z.of_nat (Datatypes.S (h + h))) with (2 * Z.of_nat h + 1) by lia.
  ring.
Qed.

Lemma fr_sum_swap (a b : nat) (f : Z -> Z -> fr_t) :
  fr_sum a (fun i => fr_sum b (fun j => f i j)) =
  fr_sum b (fun j => fr_sum a (fun i => f i j)).
Proof.
  induction a as [|a IH]; simpl.
  - now rewrite fr_sum_zero.
  - rewrite IH, <- fr_sum_add. reflexivity.
Qed.

(** A sum with one term that is not zero. *)
Lemma fr_sum_single (cnt : nat) (f : Z -> fr_t) (k : Z) :
  0 <= k < Z.of_nat cnt ->
  (forall j, 0 <= j < Z.of_nat cnt -> j <> k -> f j = fr_zero) ->
  fr_sum cnt f = f k.
Proof.
  induction cnt as [|cnt IH]; intros Hk Hz; [lia|]. simpl.
  destruct (Z.eq_dec k (Z.of_nat cnt)) as [->|Hne].
  - rewrite (fr_sum_ext cnt f (fun _ => fr_zero)) by (intros j Hj; apply Hz; lia).
    rewrite fr_sum_zero. ring.
  - rewrite IH by (try (intros j Hj Hjk; apply Hz); lia).
    rewrite (Hz (Z.of_nat cnt)) by lia. ring.
Qed.

(** The geometric sum. *)
Lemma fr_sum_geometric (cnt : nat) u :
  fr_mul (fr_sub u fr_one) (fr_sum cnt (fun i => fr_pow u i)) =
  fr_sub (fr_pow u (Z.of_nat cnt)) fr_one.
Proof.
  induction cnt as [|cnt IH].
  - simpl. rewrite fr_pow_0. ring.
  - cbn [fr_sum].
    transitivity (fr_add (fr_mul (fr_sub u fr_one) (fr_sum cnt (fun i => fr_pow u i)))
                         (fr_mul (fr_sub u fr_one) (fr_pow u (Z.of_nat cnt)))); [ring|].
    rewrite IH. rewrite Nat2Z.inj_succ. unfold Z.succ.
    rewrite fr_pow_add, fr_pow_1 by lia. ring.
Qed.

(** The powers of a root of unity other than one add up to zero. *)
Lemma fr_sum_root_of_unity (cnt : nat) u :
  u <> fr_one -> fr_pow u (Z.of_nat cnt) = fr_one ->
  fr_sum cnt (fun i => fr_pow u i) = fr_zero.
Proof.
  intros Hu Hone. apply (fr_mul_nonzero (fr_sub u fr_one)).
  - intros E. apply Hu. now apply fr_sub_zero_eq.
  - rewrite fr_sum_geometric, Hone. ring.
Qed.

(** *** The recursion of the engine is the discrete Fourier transform *)

(** The exponents of the even and of the odd terms, in the lower and in
    the upper half of the output. *)
Lemma fr_pow_even_term w (i j : Z) :
  0 <= i -> 0 <= j -> fr_pow w (i * (2 * j)) = fr_pow (fr_mul w w) (i * j).
Proof.
  intros Hi Hj. rewrite fr_pow_square by nia. f_equal. lia.
Qed.

Lemma fr_pow_odd_term w (i j : Z) :
  0 <= i -> 0 <= j ->
  fr_pow w (i * (2 * j + 1)) = fr_mul (fr_pow (fr_mul w w) (i * j)) (fr_pow w i).
Proof.
  intros Hi Hj. rewrite fr_pow_square by nia.
  rewrite <- fr_pow_add by nia. f_equal. lia.
Qed.

Lemma fr_pow_even_term_upper w (h i j : Z) :
  0 < h -> 0 <= i -> 0 <= j -> fr_pow w (2 * h) = fr_one ->
  fr_pow w ((i + h) * (2 * j)) = fr_pow (fr_mul w w) (i * j).
Proof.
  intros Hh Hi Hj Hone.
  replace ((i + h) * (2 * j)) with (i * (2 * j) + (2 * h) * j) by lia.
  rewrite fr_pow_add by nia. rewrite (fr_pow_mul w (2 * h) j) by lia.
  rewrite Hone, fr_pow_one, fr_pow_even_term by lia. ring.
Qed.

Lemma fr_pow_odd_term_upper w (h i j : Z) :
  0 < h -> 0 <= i -> 0 <= j -> primitive_root w (2 * h) ->
  fr_pow w ((i + h) * (2 * j + 1)) =
    fr_negate (fr_mul (fr_pow (fr_mul w w) (i * j)) (fr_pow w i)).
Proof.
  intros Hh Hi Hj Hw. pose proof (primitive_root_half w h Hh Hw) as Hhalf.
  destruct Hw as [Hone _].
  replace ((i + h) * (2 * j + 1)) with (i * (2 * j + 1) + ((2 * h) * j + h)) by lia.
  rewrite fr_pow_add by nia. rewrite (fr_pow_add w (2 * h * j) h) by nia.
  rewrite (fr_pow_mul w (2 * h) j) by lia.
  rewrite Hone, fr_pow_one, Hhalf, fr_pow_odd_term by lia. ring.
Qed.

Lemma transform_dft :
  forall (k : nat) w (x : Z -> fr_t) (i : Z),
    primitive_root w (2 ^ Z.of_nat k) -> 0 <= i < 2 ^ Z.of_nat k ->
    transform k x (fr_pow w) i = dft w x (2 ^ Z.of_nat k) i.
Proof.
  induction k as [|k IH]; intros w x i Hw Hi.
  - change (2 ^ Z.of_nat 0) with 1 in *. replace i with 0 by lia.
    unfold dft. simpl. rewrite fr_pow_0. ring.
  - rewrite pow2_of_nat_succ in *.
    pose proof (pow2_pos (Z.of_nat k) ltac:(lia)) as Hpos.
    set (h := 2 ^ Z.of_nat k) in *.
    pose proof (primitive_root_square w h Hpos Hw) as Hww.
    assert (Hsub : forall y i', 0 <= i' < h ->
              transform k y (fun j => fr_pow w (2 * j)) i' = dft (fr_mul w w) y h i').
    { intros y i' Hi'. rewrite <- (IH (fr_mul w w) y i' Hww Hi').
      apply transform_ext; [reflexivity | | exact Hi'].
      intros j Hj. symmetry. apply fr_pow_square. lia. }
    cbn [transform]. cbv zeta. fold h.
    unfold dft at 1.
    replace (Z.to_nat (2 * h)) with (Z.to_nat h + Z.to_nat h)%nat by lia.
    rewrite fr_sum_parity.
    destruct (i <? h) eqn:E.
    + apply Z.ltb_lt in E. rewrite !Hsub by lia. unfold dft.
      rewrite <- fr_sum_scale_r. f_equal.
      * apply fr_sum_ext. intros j Hj. now rewrite fr_pow_even_term by lia.
      * apply fr_sum_ext. intros j Hj. rewrite fr_pow_odd_term by lia. ring.
    + apply Z.ltb_ge in E. rewrite !Hsub by lia. unfold dft.
      rewrite (fr_sum_ext _ (fun j => fr_mul (x (2 * j)) (fr_pow w (i * (2 * j))))
                 (fun j => fr_mul (x (2 * j)) (fr_pow (fr_mul w w) ((i - h) * j)))).
      2:{ intros j Hj. destruct Hw as [Hone _].
          replace (i * (2 * j)) with ((i - h + h) * (2 * j)) by lia.
          now rewrite fr_pow_even_term_upper by (try exact Hone; lia). }
      rewrite (fr_sum_ext _
                 (fun j => fr_mul (x (2 * j + 1)) (fr_pow w (i * (2 * j + 1))))
                 (fun j => fr_mul (fr_negate (fr_pow w (i - h)))
                             (fr_mul (x (2 * j + 1)) (fr_pow (fr_mul w w) ((i - h) * j))))).
      2:{ intros j Hj.
          replace (i * (2 * j + 1)) with ((i - h + h) * (2 * j + 1)) by lia.
          rewrite fr_pow_odd_term_upper by (try assumption; lia). ring. }
      rewrite fr_sum_scale_l. ring.
Qed.

(** ** The slow transform, and the engine against it *)

Implicit Types m : mem fr_t.

Lemma pow2_divides_uint64_modulus (k : nat) :
  2 ^ Z.of_nat k < uint64_modulus -> (2 ^ Z.of_nat k | uint64_modulus).
Proof.
  intros H. pose proof (pow2_uint64_exponent k H) as Hk.
  exists (2 ^ (64 - Z.of_nat k)). unfold uint64_modulus.
  rewrite <- Z.pow_add_r by lia. f_equal. lia.
Qed.

(** The index [(i * j) % n] of the source, with the product taken in
    [uint64_t]: the wrap-around does not show when [n] is a power of two. *)
Lemma slow_root_index (n i j : Z) :
  (n | uint64_modulus) -> u64_mul i j mod n = (i * j) mod n.
Proof. intros H. unfold u64_mul. now apply Z.mod_mod_divide. Qed.

Lemma fr_sum_succ (j : Z) (f : Z -> fr_t) :
  0 <= j -> fr_sum (Z.to_nat (j + 1)) f = fr_add (fr_sum (Z.to_nat j) f) (f j).
Proof.
  intros Hj. replace (Z.to_nat (j + 1)) with (Datatypes.S (Z.to_nat j)) by lia.
  cbn [fr_sum]. now rewrite Z2Nat.id by exact Hj.
Qed.

(** The inner loop of [fft_fr_slow] adds up the terms of the direct
    evaluation. *)
Lemma slow_inner_loop (k : nat) m (in_ stride roots roots_stride i : Z) :
  2 ^ Z.of_nat k < uint64_modulus ->
  0 <= stride -> 2 ^ Z.of_nat k * stride < uint64_modulus ->
  0 <= roots_stride -> 2 ^ Z.of_nat k * roots_stride < uint64_modulus ->
  0 <= i ->
  for_range 1 (2 ^ Z.of_nat k)
    (slow_term m in_ stride roots roots_stride (2 ^ Z.of_nat k) i)
    (fr_mul (m in_) (m roots)) =
  direct_evaluation m in_ stride roots roots_stride (2 ^ Z.of_nat k) i.
Proof.
  intros Hn Hs Hns Hrs Hnrs Hi.
  pose proof (pow2_pos (Z.of_nat k) ltac:(lia)) as Hpos.
  pose proof (pow2_divides_uint64_modulus k Hn) as Hdiv.
  set (n := 2 ^ Z.of_nat k) in *.
  unfold direct_evaluation.
  apply (for_range_invariant
           (fun j last =>
              last = fr_sum (Z.to_nat j)
                       (fun j => fr_mul (m (in_ + j * stride))
                                        (m (roots + (i * j) mod n * roots_stride))))).
  - lia.
  - simpl. rewrite Z.mul_0_r, Z.mod_0_l by lia. rewrite !Z.mul_0_l, !Z.add_0_r. ring.
  - intros j last Hj ->. rewrite fr_sum_succ by lia. unfold slow_term. cbv zeta.
    pose proof (Z.mod_pos_bound (i * j) n Hpos) as Hmod.
    rewrite slow_root_index by exact Hdiv.
    rewrite !u64_mul_small by nia. reflexivity.
Qed.

Lemma direct_evaluation_ext (n : Z) m m' (in_ stride roots roots_stride i : Z) :
  0 < n ->
  (forall j, 0 <= j < n -> m' (in_ + j * stride) = m (in_ + j * stride)) ->
  (forall j, 0 <= j < n -> m' (roots + j * roots_stride) = m (roots + j * roots_stride)) ->
  direct_evaluation m' in_ stride roots roots_stride n i =
  direct_evaluation m in_ stride roots roots_stride n i.
Proof.
  intros Hn Hin Hroots. unfold direct_evaluation. apply fr_sum_ext.
  intros j Hj. rewrite Hin by lia.
  rewrite Hroots by (apply Z.mod_pos_bound; lia). reflexivity.
Qed.

(** [fft_fr_slow] writes the direct evaluation to [out], and nothing
    else. *)
Lemma fft_fr_slow_direct (k : nat) m (out in_ stride roots roots_stride : Z) :
  2 ^ Z.of_nat k < uint64_modulus ->
  0 <= stride -> 2 ^ Z.of_nat k * stride < uint64_modulus ->
  0 <= roots_stride -> 2 ^ Z.of_nat k * roots_stride < uint64_modulus ->
  apart in_ stride (2 ^ Z.of_nat k) out (2 ^ Z.of_nat k) ->
  apart roots roots_stride (2 ^ Z.of_nat k) out (2 ^ Z.of_nat k) ->
  same_outside out (2 ^ Z.of_nat k) m
    (fft_fr_slow m out in_ stride roots roots_stride (2 ^ Z.of_nat k)) /\
  forall i, 0 <= i < 2 ^ Z.of_nat k ->
    fft_fr_slow m out in_ stride roots roots_stride (2 ^ Z.of_nat k) (out + i) =
    direct_evaluation m in_ stride roots roots_stride (2 ^ Z.of_nat k) i.
Proof.
  intros Hn Hs Hns Hrs Hnrs Hin Hroots.
  pose proof (pow2_pos (Z.of_nat k) ltac:(lia)) as Hpos.
  unfold fft_fr_slow.
  enough (same_outside out (2 ^ Z.of_nat k) m
            (for_range 0 (2 ^ Z.of_nat k)
               (slow_row out in_ stride roots roots_stride (2 ^ Z.of_nat k)) m) /\
          (forall i, 0 <= i < 2 ^ Z.of_nat k ->
             for_range 0 (2 ^ Z.of_nat k)
               (slow_row out in_ stride roots roots_stride (2 ^ Z.of_nat k)) m (out + i) =
             direct_evaluation m in_ stride roots roots_stride (2 ^ Z.of_nat k) i))
    by assumption.
  apply (for_range_invariant
           (fun r t =>
              same_outside out (2 ^ Z.of_nat k) m t /\
              forall i, 0 <= i < r ->
                t (out + i) =
                direct_evaluation m in_ stride roots roots_stride (2 ^ Z.of_nat k) i)).
  - lia.
  - split; [apply same_outside_refl | intros; lia].
  - intros r t Hr [Hframe Hdone]. unfold slow_row. cbv zeta.
    rewrite slow_inner_loop by (try assumption; lia).
    rewrite (direct_evaluation_ext _ m t)
      by (try (intros j Hj; eapply apart_outside; eassumption); lia).
    split.
    + eapply same_outside_trans; [exact Hframe|].
      apply same_outside_store. unfold within. lia.
    + intros i Hi. destruct (Z.eq_dec i r) as [->|Hne].
      * now rewrite store_same.
      * rewrite store_other by lia. apply Hdone. lia.
Qed.

(** With a table of the powers of a root of unity, the direct evaluation
    is the discrete Fourier transform of the input. *)
Lemma direct_evaluation_dft (n : Z) m (in_ stride roots roots_stride i : Z) w :
  0 < n -> 0 <= i ->
  fr_pow w n = fr_one -> powers_table m roots roots_stride n w ->
  direct_evaluation m in_ stride roots roots_stride n i =
  dft w (fun j => m (in_ + j * stride)) n i.
Proof.
  intros Hn Hi Hone Htable. unfold direct_evaluation, dft.
  apply fr_sum_ext. intros j Hj.
  rewrite Htable by (apply Z.mod_pos_bound; lia).
  rewrite fr_pow_mod by (try assumption; nia). reflexivity.
Qed.

(** The engine on a table of the powers of a root of unity of order
    [2^k]: the output is the discrete Fourier transform of the input. *)
Lemma fft_fr_fast_dft (k fuel : nat) m (out in_ stride roots roots_stride : Z) w :
  (k < fuel)%nat ->
  2 ^ Z.of_nat k < uint64_modulus ->
  0 <= stride -> 2 ^ Z.of_nat k * stride < uint64_modulus ->
  0 <= roots_stride -> 2 ^ Z.of_nat k * roots_stride < uint64_modulus ->
  apart in_ stride (2 ^ Z.of_nat k) out (2 ^ Z.of_nat k) ->
  apart roots roots_stride (2 ^ Z.of_nat k) out (2 ^ Z.of_nat k) ->
  primitive_root w (2 ^ Z.of_nat k) ->
  powers_table m roots roots_stride (2 ^ Z.of_nat k) w ->
  exists m',
    fft_fr_fast fuel m out in_ stride roots roots_stride (2 ^ Z.of_nat k) = Done m' /\
    same_outside out (2 ^ Z.of_nat k) m m' /\
    forall i, 0 <= i < 2 ^ Z.of_nat k ->
      m' (out + i) = dft w (fun j => m (in_ + j * stride)) (2 ^ Z.of_nat k) i.
Proof.
  intros Hfuel Hn Hs Hns Hrs Hnrs Hin Hroots Hw Htable.
  destruct (fft_fr_fast_transform k fuel m out in_ stride roots roots_stride)
    as [m' [E [F V]]]; try assumption.
  exists m'. split; [exact E|]. split; [exact F|].
  intros i Hi. rewrite V by exact Hi.
  rewrite <- transform_dft by assumption.
  apply transform_ext; [reflexivity | | exact Hi].
  intros j Hj. now apply Htable.
Qed.

(** ** Inverting the transform *)

Lemma fr_inv_unique a b : fr_mul a b = fr_one -> fr_inv a = b.
Proof.
  intros Hab.
  assert (Ha : a <> fr_zero).
  { intros ->. apply fr_one_nonzero. rewrite <- Hab. ring. }
  transitivity (fr_mul (fr_mul (fr_inv a) a) b).
  - transitivity (fr_mul (fr_inv a) (fr_mul a b)); [|ring]. rewrite Hab. ring.
  - rewrite (Finv_l fr_field a Ha). ring.
Qed.

Lemma fr_inv_one : fr_inv fr_one = fr_one.
Proof. apply fr_inv_unique. ring. Qed.

Lemma root_of_unity_nonzero w (n : Z) : 0 < n -> fr_pow w n = fr_one -> w <> fr_zero.
Proof.
  intros Hn Hone ->. apply fr_one_nonzero. rewrite <- Hone.
  replace n with (1 + (n - 1)) by lia.
  rewrite fr_pow_add, fr_pow_1 by lia. ring.
Qed.

Lemma fr_mul_inv_root w (n : Z) :
  0 < n -> fr_pow w n = fr_one -> fr_mul w (fr_inv w) = fr_one.
Proof.
  intros Hn Hone. pose proof (root_of_unity_nonzero w n Hn Hone) as Hw.
  field. exact Hw.
Qed.

Lemma fr_inv_pow w (n e : Z) :
  0 < n -> fr_pow w n = fr_one -> fr_inv (fr_pow w e) = fr_pow (fr_inv w) e.
Proof.
  intros Hn Hone. apply fr_inv_unique.
  rewrite <- fr_pow_mul_base, (fr_mul_inv_root w n Hn Hone). apply fr_pow_one.
Qed.

Lemma primitive_root_inverse w w' (n : Z) :
  fr_mul w w' = fr_one -> primitive_root w n -> primitive_root w' n.
Proof.
  intros Hww [Hone Hprim]. split.
  - transitivity (fr_mul (fr_pow w n) (fr_pow w' n)); [rewrite Hone; ring|].
    rewrite <- fr_pow_mul_base, Hww. apply fr_pow_one.
  - intros k Hk E. apply (Hprim k Hk).
    transitivity (fr_mul (fr_pow w k) (fr_pow w' k)); [rewrite E; ring|].
    rewrite <- fr_pow_mul_base, Hww. apply fr_pow_one.
Qed.

(** *** The embedding of the lengths *)

Lemma fr_sum_ones (cnt : nat) :
  Z.of_nat cnt < uint64_modulus ->
  fr_sum cnt (fun _ => fr_one) = fr_from_uint64 (Z.of_nat cnt).
Proof.
  induction cnt as [|cnt IH]; intros H; [reflexivity|].
  cbn [fr_sum]. rewrite IH by lia.
  rewrite Nat2Z.inj_succ. unfold Z.succ.
  now rewrite fr_from_uint64_succ by lia.
Qed.

Lemma fr_from_uint64_double (a : Z) :
  0 <= a -> 2 * a < uint64_modulus ->
  fr_from_uint64 (2 * a) = fr_mul (fr_add fr_one fr_one) (fr_from_uint64 a).
Proof.
  intros Ha H.
  rewrite <- (Z2Nat.id a Ha). rewrite <- (Z2Nat.id (2 * Z.of_nat (Z.to_nat a))) by lia.
  rewrite <- !fr_sum_ones by lia.
  replace (Z.to_nat (2 * Z.of_nat (Z.to_nat a))) with (Z.to_nat a + Z.to_nat a)%nat by lia.
  rewrite fr_sum_parity. ring.
Qed.

Lemma fr_from_uint64_pow2_nonzero (k : nat) :
  fr_add fr_one fr_one <> fr_zero ->
  2 ^ Z.of_nat k < uint64_modulus ->
  fr_from_uint64 (2 ^ Z.of_nat k) <> fr_zero.
Proof.
  intros Htwo. induction k as [|k IH]; intros H.
  - exact fr_one_nonzero.
  - rewrite pow2_of_nat_succ in *.
    pose proof (pow2_pos (Z.of_nat k) ltac:(lia)) as Hpos.
    rewrite fr_from_uint64_double by lia.
    intros E. apply fr_mul_nonzero in E; [|exact Htwo].
    revert E. apply IH. lia.
Qed.

(** A field with a root of unity of even order has [1 + 1 <> 0]. *)
Lemma primitive_root_two_nonzero w (h : Z) :
  0 < h -> primitive_root w (2 * h) -> fr_add fr_one fr_one <> fr_zero.
Proof.
  intros Hh Hw E. pose proof (primitive_root_half w h Hh Hw) as Hhalf.
  destruct Hw as [_ Hprim]. apply (Hprim h); [lia|].
  rewrite Hhalf. transitivity (fr_sub (fr_add fr_one fr_one) fr_one); [|ring].
  rewrite E. ring.
Qed.

Lemma primitive_root_length_nonzero w (k : nat) :
  primitive_root w (2 ^ Z.of_nat k) -> 2 ^ Z.of_nat k < uint64_modulus ->
  fr_from_uint64 (2 ^ Z.of_nat k) <> fr_zero.
Proof.
  intros Hw H. destruct k as [|k]; [exact fr_one_nonzero|].
  apply fr_from_uint64_pow2_nonzero; [|exact H].
  rewrite pow2_of_nat_succ in Hw.
  apply (primitive_root_two_nonzero w (2 ^ Z.of_nat k)); [|exact Hw].
  apply pow2_pos. lia.
Qed.

(** *** The inverse transform undoes the forward transform *)

(** The sum of the powers of [w^l * w'^i] over a full period: the length
    when [l = i], zero otherwise. *)
Lemma dft_orthogonal w w' (n i l : Z) :
  fr_mul w w' = fr_one -> primitive_root w n ->
  0 <= i < n -> 0 <= l < n -> l <> i ->
  fr_sum (Z.to_nat n) (fun j => fr_pow (fr_mul (fr_pow w l) (fr_pow w' i)) j) = fr_zero.
Proof.
  intros Hww Hw Hi Hl Hne.
  pose proof (primitive_root_inverse w w' n Hww Hw) as Hw'.
  assert (Hcancel : forall e, fr_mul (fr_pow w e) (fr_pow w' e) = fr_one).
  { intros e. rewrite <- fr_pow_mul_base, Hww. apply fr_pow_one. }
  apply fr_sum_root_of_unity.
  - destruct (Z_lt_le_dec i l) as [Hlt|Hge].
    + replace l with ((l - i) + i) by lia. rewrite fr_pow_add by lia.
      intros E. destruct Hw as [_ Hprim]. apply (Hprim (l - i)); [lia|].
      rewrite <- E.
      transitivity (fr_mul (fr_pow w (l - i)) (fr_mul (fr_pow w i) (fr_pow w' i)));
        [rewrite Hcancel; ring | ring].
    + replace i with ((i - l) + l) by lia. rewrite fr_pow_add by lia.
      intros E. destruct Hw' as [_ Hprim]. apply (Hprim (i - l)); [lia|].
      rewrite <- E.
      transitivity (fr_mul (fr_pow w' (i - l)) (fr_mul (fr_pow w l) (fr_pow w' l)));
        [rewrite Hcancel; ring | ring].
  - rewrite Z2Nat.id by lia. rewrite fr_pow_mul_base.
    rewrite <- !fr_pow_mul by lia.
    rewrite (Z.mul_comm l n), (Z.mul_comm i n), !fr_pow_mul by lia.
    destruct Hw as [-> _]. destruct Hw' as [-> _]. rewrite !fr_pow_one. ring.
Qed.

Lemma dft_inverse w w' (x : Z -> fr_t) (n i : Z) :
  fr_mul w w' = fr_one -> primitive_root w n ->
  0 < n < uint64_modulus -> fr_from_uint64 n <> fr_zero -> 0 <= i < n ->
  fr_mul (dft w' (fun j => dft w x n j) n i) (fr_inv (fr_from_uint64 n)) = x i.
Proof.
  intros Hww Hw Hn Hnz Hi.
  assert (Hcancel : forall e, fr_mul (fr_pow w e) (fr_pow w' e) = fr_one).
  { intros e. rewrite <- fr_pow_mul_base, Hww. apply fr_pow_one. }
  assert (Hsum : dft w' (fun j => dft w x n j) n i = fr_mul (x i) (fr_from_uint64 n)).
  { unfold dft.
    rewrite (fr_sum_ext _ _
               (fun j => fr_sum (Z.to_nat n)
                           (fun l => fr_mul (x l)
                                       (fr_pow (fr_mul (fr_pow w l) (fr_pow w' i)) j)))).
    2:{ intros j Hj. rewrite <- fr_sum_scale_r. apply fr_sum_ext. intros l Hl.
        rewrite fr_pow_mul_base, <- !fr_pow_mul by lia.
        rewrite (Z.mul_comm l j). ring. }
    rewrite fr_sum_swap.
    rewrite (fr_sum_single _ _ i) by
      (try (intros l Hl Hli; rewrite fr_sum_scale_l, dft_orthogonal by (assumption || lia);
            ring); lia).
    rewrite fr_sum_scale_l. f_equal.
    rewrite (fr_sum_ext _ _ (fun _ => fr_one))
      by (intros j Hj; rewrite Hcancel; apply fr_pow_one).
    rewrite fr_sum_ones by lia. f_equal. lia. }
  rewrite Hsum. field. exact Hnz.
Qed.

End Algebra.

(** ** Claims on the code alone *)

Section CodeClaims.

Context {fr_t : Type} {fr : Fr fr_t}.

Implicit Types m : mem fr_t.

Lemma disjoint_apart (p stride n len q len' : Z) :
  disjoint_blocks p len q len' ->
  0 <= stride -> 0 < len -> n * stride <= len ->
  apart p stride n q len'.
Proof.
  intros Hd Hs Hlen Hn j Hj. apply Hd. unfold within. nia.
Qed.

Lemma table_stride_fits (n N : Z) : 0 < n -> 0 <= N -> 0 <= N / n /\ n * (N / n) <= N.
Proof.
  intros Hn HN. split; [apply Z.div_pos; lia | apply Z.mul_div_le; lia].
Qed.

(** C3, at the input where the code departs from it: a call with
    [n = 0] does not return [C_KZG_BADARGS].  The stride
    [max_width / n] is divided out before the two checks, so the call
    divides by zero and has no defined result, whatever the memory, the
    buffers, the direction and the settings are. *)
Theorem fft_fr_zero_length_undefined :
  forall m (out in_ : Z) (inverse : bool) (fs : FFTSettings),
    fft_fr m out in_ inverse 0 fs = Undefined /\
    fft_fr m out in_ inverse 0 fs <> Done (C_KZG_BADARGS, m).
Proof.
  intros m out in_ inverse fs. rewrite fft_fr_zero. split; [reflexivity | discriminate].
Qed.

(** On every other length the checks do what is asked of them: a length
    that is not a power of two or exceeds [max_width] is refused with the
    memory as it was, and a power of two from 1 to [max_width] is
    accepted. *)
Lemma fft_fr_checks m (out in_ : Z) (inverse : bool) (n : Z) (fs : FFTSettings) :
  0 < n -> max_width fs < uint64_modulus ->
  (fft_fr m out in_ inverse n fs = Done (C_KZG_BADARGS, m) <->
     is_power_of_two n = false \/ max_width fs < n) /\
  (is_power_of_two n = true -> n <= max_width fs ->
     exists m', fft_fr m out in_ inverse n fs = Done (C_KZG_OK, m')).
Proof.
  intros Hn Hmax.
  assert (Hok : is_power_of_two n = true -> n <= max_width fs ->
                exists m', fft_fr m out in_ inverse n fs = Done (C_KZG_OK, m')).
  { intros Hp Hle. apply fft_fr_accepted. repeat split; assumption. }
  split; [|exact Hok]. split.
  - intros E. destruct (is_power_of_two n) eqn:Hp; [|now left].
    right. destruct (Z_lt_le_dec (max_width fs) n) as [Hlt|Hle]; [exact Hlt|].
    destruct (Hok eq_refl Hle) as [m' E']. rewrite E' in E. discriminate.
  - intros H. apply fft_fr_refused; [lia | tauto].
Qed.

(** C4: on a valid length, the inverse transform runs the engine on the
    inverse-roots table with the stride [max_width / n], and then
    multiplies each of the [n] elements of [out] by
    [fr_inv (fr_from_uint64 n)]; nothing else changes. *)
Theorem fft_fr_inverse_scaled :
  forall m (out in_ n : Z) (fs : FFTSettings),
    valid_length n fs ->
    exists m1 m',
      fft_fr_fast max_depth m out in_ 1 (reverse_roots_of_unity fs)
        (max_width fs / n) n = Done m1 /\
      fft_fr m out in_ true n fs = Done (C_KZG_OK, m') /\
      (forall i, 0 <= i < n ->
         m' (out + i) = fr_mul (m1 (out + i)) (fr_inv (fr_from_uint64 n))) /\
      same_outside out n m1 m'.
Proof.
  intros m out in_ n fs Hv. rewrite fft_fr_valid by exact Hv.
  destruct (valid_length_pow2 n fs Hv) as [k [_ [_ Hn]]].
  destruct (fft_fr_fast_total max_depth n m out in_ 1 (reverse_roots_of_unity fs)
              (max_width fs / n) (log2_below_max_depth n ltac:(lia))) as [m1 E1].
  rewrite E1. cbn [bind].
  destruct (scale_loop out n (fr_inv (fr_from_uint64 n)) m1 ltac:(lia)) as [Fs Vs].
  exists m1. eexists. split; [reflexivity|]. split; [reflexivity|].
  split; assumption.
Qed.

(** C5: in the recursive case, after the two recursive calls have left
    the memory [m2], the combination loop computes, for every [i] below
    [half], [t = out[i + half] * roots[i * roots_stride]] and stores
    [out[i] - t] in [out[i + half]] and [out[i] + t] in [out[i]], where
    [out[i]] is in both places the value the recursive calls left. *)
Theorem fft_fr_fast_combination :
  forall (fuel : nat) m (out in_ stride roots roots_stride n : Z) m1 m2,
    0 < n / 2 -> n < uint64_modulus ->
    0 <= roots_stride -> n / 2 * roots_stride <= uint64_modulus ->
    apart roots roots_stride (n / 2) out (n / 2 + n / 2) ->
    fft_fr_fast fuel m out in_ (u64_mul stride 2) roots (u64_mul roots_stride 2) (n / 2)
      = Done m1 ->
    fft_fr_fast fuel m1 (out + n / 2) (in_ + stride) (u64_mul stride 2) roots
      (u64_mul roots_stride 2) (n / 2) = Done m2 ->
    exists m3,
      fft_fr_fast (Datatypes.S fuel) m out in_ stride roots roots_stride n = Done m3 /\
      forall i, 0 <= i < n / 2 ->
        m3 (out + i + n / 2) =
          fr_sub (m2 (out + i))
                 (fr_mul (m2 (out + i + n / 2)) (m2 (roots + i * roots_stride))) /\
        m3 (out + i) =
          fr_add (m2 (out + i))
                 (fr_mul (m2 (out + i + n / 2)) (m2 (roots + i * roots_stride))).
Proof.
  intros fuel m out in_ stride roots roots_stride n m1 m2 Hhalf Hn Hrs Hnrs Hroots E1 E2.
  rewrite fft_fr_fast_step by exact Hhalf. rewrite E1. cbn [bind]. rewrite E2. cbn [bind].
  eexists. split; [reflexivity|].
  pose proof (Z.mul_div_le n 2 ltac:(lia)) as Hsum.
  assert (Hloop : butterflies_done out roots roots_stride (n / 2) m2 (n / 2)
                    (for_range 0 (n / 2) (butterfly out roots roots_stride (n / 2)) m2))
    by (apply butterfly_loop; try assumption; lia).
  destruct Hloop as [_ Hdone]. exact Hdone.
Qed.

(** C9: the engine returns for every length, a power of two or not.  The
    length [n / 2] of a recursive call is positive and smaller than [n],
    so a recursion budget above the binary logarithm of [n] is never used
    up, and the memory returned is the same for every larger budget: the
    engine is a total function of its arguments. *)
Theorem fft_fr_fast_terminates :
  forall (fuel : nat) m (out in_ stride roots roots_stride n : Z),
    (Z.to_nat (Z.log2 n) < fuel)%nat ->
    (0 < n / 2 -> 0 < n / 2 < n) /\
    exists m',
      fft_fr_fast fuel m out in_ stride roots roots_stride n = Done m' /\
      forall fuel', (fuel <= fuel')%nat ->
        fft_fr_fast fuel' m out in_ stride roots roots_stride n = Done m'.
Proof.
  intros fuel m out in_ stride roots roots_stride n Hfuel. split.
  - apply half_decreases.
  - destruct (fft_fr_fast_total fuel n m out in_ stride roots roots_stride Hfuel)
      as [m' E].
    exists m'. split; [exact E|].
    intros fuel' Hle. now apply (fft_fr_fast_fuel_mono fuel).
Qed.

Lemma same_outside_block (p len q len' : Z) m m' :
  disjoint_blocks p len q len' -> same_outside q len' m m' -> same_block p len m m'.
Proof.
  intros Hd Hs i Hi. apply Hs, Hd. unfold within. lia.
Qed.

(** The driver writes the block of [n] elements at [out] only. *)
Lemma fft_fr_frame m (out in_ : Z) (inverse : bool) (n : Z) (fs : FFTSettings)
    (r : C_KZG_RET) m' :
  1 <= n < uint64_modulus ->
  fft_fr m out in_ inverse n fs = Done (r, m') ->
  same_outside out n m m'.
Proof.
  intros Hn H. unfold fft_fr, u64_div, CHECK in H.
  destruct (n =? 0) eqn:E0; [apply Z.eqb_eq in E0; lia|]. cbn [bind] in H.
  destruct (n <=? max_width fs);
    [|injection H as _ <-; apply same_outside_refl].
  destruct (is_power_of_two n);
    [|injection H as _ <-; apply same_outside_refl].
  destruct inverse.
  - destruct (fft_fr_fast max_depth m out in_ 1 _ _ n) as [m1| |] eqn:E1; try discriminate.
    cbn [bind] in H. injection H as _ <-.
    apply fft_fr_fast_frame in E1; [|exact Hn].
    eapply same_outside_trans; [exact E1|]. apply scale_loop. lia.
  - destruct (fft_fr_fast max_depth m out in_ 1 _ _ n) as [m1| |] eqn:E1; try discriminate.
    cbn [bind] in H. injection H as _ <-.
    now apply fft_fr_fast_frame in E1.
Qed.

(** C8: a call of the engine or of the driver changes the memory in the
    block of [n] elements at [out] only, so that every block apart from it
    (the input, the root tables) holds after the call what it held
    before; and of the two recursive calls of the engine, the first writes
    the first half of that block only and the second the second half
    only. *)
Theorem fft_fr_writes_out_only :
  forall (fuel : nat) m (out in_ stride roots roots_stride n : Z)
         (inverse : bool) (fs : FFTSettings),
    1 <= n < uint64_modulus ->
    (forall m',
       fft_fr_fast fuel m out in_ stride roots roots_stride n = Done m' ->
       same_outside out n m m' /\
       (forall p len, disjoint_blocks p len out n -> same_block p len m m') /\
       (0 < n / 2 ->
        exists m1 m2,
          fft_fr_fast (Nat.pred fuel) m out in_ (u64_mul stride 2) roots
            (u64_mul roots_stride 2) (n / 2) = Done m1 /\
          fft_fr_fast (Nat.pred fuel) m1 (out + n / 2) (in_ + stride) (u64_mul stride 2)
            roots (u64_mul roots_stride 2) (n / 2) = Done m2 /\
          same_outside out (n / 2) m m1 /\
          same_outside (out + n / 2) (n / 2) m1 m2 /\
          disjoint_blocks out (n / 2) (out + n / 2) (n / 2))) /\
    (forall r m',
       fft_fr m out in_ inverse n fs = Done (r, m') ->
       same_outside out n m m' /\
       (forall p len, disjoint_blocks p len out n -> same_block p len m m')).
Proof.
  intros fuel m out in_ stride roots roots_stride n inverse fs Hn. split.
  - intros m' H. pose proof (fft_fr_fast_frame _ _ _ _ _ _ _ _ _ Hn H) as Hframe.
    split; [exact Hframe|]. split.
    + intros p len Hd. eapply same_outside_block; eassumption.
    + intros Hhalf. destruct fuel as [|fuel]; [discriminate|].
      rewrite fft_fr_fast_step in H by exact Hhalf. cbn [Nat.pred].
      pose proof (half_decreases n Hhalf) as Hdec.
      destruct (fft_fr_fast fuel m out in_ _ roots _ (n / 2)) as [m1| |] eqn:E1;
        try discriminate.
      cbn [bind] in H.
      destruct (fft_fr_fast fuel m1 (out + n / 2) _ _ roots _ (n / 2)) as [m2| |] eqn:E2;
        try discriminate.
      exists m1, m2. split; [reflexivity|]. split; [exact E2|].
      split; [|split].
      * apply fft_fr_fast_frame in E1; [exact E1 | lia].
      * apply fft_fr_fast_frame in E2; [exact E2 | lia].
      * intros a. unfold within. lia.
  - intros r m' H. pose proof (fft_fr_frame _ _ _ _ _ _ _ _ Hn H) as Hframe.
    split; [exact Hframe|].
    intros p len Hd. eapply same_outside_block; eassumption.
Qed.

(** C6: two settings objects, one of width [n] and one of a larger width,
    whose tables in use hold the same roots (entry [j] of the first is
    entry [j * (max_width / n)] of the second), give the same result for
    the same input of length [n], in either direction. *)
Theorem fft_fr_stride_independent :
  forall m (out in_ : Z) (inverse : bool) (n : Z) (fs1 fs2 : FFTSettings),
    valid_length n fs2 -> max_width fs1 = n ->
    (forall j, 0 <= j < n ->
       m (roots_in_use inverse fs1 + j) =
       m (roots_in_use inverse fs2 + j * (max_width fs2 / n))) ->
    disjoint_blocks in_ n out n ->
    disjoint_blocks (roots_in_use inverse fs1) (max_width fs1) out n ->
    disjoint_blocks (roots_in_use inverse fs2) (max_width fs2) out n ->
    exists m1 m2,
      fft_fr m out in_ inverse n fs1 = Done (C_KZG_OK, m1) /\
      fft_fr m out in_ inverse n fs2 = Done (C_KZG_OK, m2) /\
      forall a, m1 a = m2 a.
Proof.
  intros m out in_ inverse n fs1 fs2 Hv2 Hw1 Htables Hin Hr1 Hr2.
  destruct (valid_length_pow2 n fs2 Hv2) as [k [-> [Hk Hn]]].
  assert (Hv1 : valid_length (2 ^ Z.of_nat k) fs1).
  { destruct Hv2 as [Hp _]. repeat split; [exact Hp | lia | lia]. }
  destruct Hv2 as [Hp [Hle Hmax]].
  destruct (table_stride_fits (2 ^ Z.of_nat k) (max_width fs2)) as [Hs2 Hfit2]; try lia.
  assert (Hs1 : max_width fs1 / 2 ^ Z.of_nat k = 1) by (rewrite Hw1; apply Z.div_same; lia).
  destruct (fft_fr_transform k m out in_ inverse fs1) as [m1 [E1 [F1 V1]]];
    [exact Hv1 | | |].
  { apply (disjoint_apart _ _ _ (2 ^ Z.of_nat k)); [exact Hin | lia..]. }
  { rewrite Hs1. apply (disjoint_apart _ _ _ (max_width fs1)); [exact Hr1 | lia..]. }
  destruct (fft_fr_transform k m out in_ inverse fs2) as [m2 [E2 [F2 V2]]];
    [repeat split; assumption | | |].
  { apply (disjoint_apart _ _ _ (2 ^ Z.of_nat k)); [exact Hin | lia..]. }
  { apply (disjoint_apart _ _ _ (max_width fs2)); [exact Hr2 | lia..]. }
  exists m1, m2. split; [exact E1|]. split; [exact E2|].
  intros a.
  destruct (Z_le_gt_dec out a) as [Hlo|Hlo];
    [destruct (Z_lt_le_dec a (out + 2 ^ Z.of_nat k)) as [Hhi|Hhi]|].
  - replace a with (out + (a - out)) by lia.
    rewrite V1, V2 by lia. cbv zeta.
    rewrite (transform_ext k _ (fun j => m (in_ + j * 1))
               (fun j => m (roots_in_use inverse fs1 + j * (max_width fs1 / 2 ^ Z.of_nat k)))
               (fun j => m (roots_in_use inverse fs2 + j * (max_width fs2 / 2 ^ Z.of_nat k)))
               (a - out)); [reflexivity | reflexivity | | lia].
    intros j Hj. rewrite Hs1, Z.mul_1_r. now apply Htables.
  - rewrite F1, F2 by (unfold within; lia). reflexivity.
  - rewrite F1, F2 by (unfold within; lia). reflexivity.
Qed.

(** The scaling loop on two memories, in step. *)
Lemma scale_loop_agree (U : Z -> Prop) (out n : Z) (c : fr_t) m m' :
  avoids out n U -> agree_outside U m m' ->
  agree_outside U (for_range 0 n (scale out c) m) (for_range 0 n (scale out c) m').
Proof.
  intros Hout H. apply (for_range_related (agree_outside U)); [exact H|].
  intros j t t' Hj Ht. unfold scale.
  rewrite (Ht (out + j)) by (apply Hout; unfold within; lia).
  now apply agree_outside_store.
Qed.

(** C10: the result of a transform does not depend on the table of the
    other direction.  Two runs on a valid length, on settings objects of
    the same width and with the same table in use, from memories that
    differ only inside the unused tables (which overlap neither the
    buffers nor the table in use), return the same code and leave memories
    that differ only there: the [out] buffers are the same. *)
Theorem fft_fr_unused_table :
  forall m m' (out in_ : Z) (inverse : bool) (n : Z) (fs fs' : FFTSettings),
    valid_length n fs ->
    max_width fs' = max_width fs ->
    roots_in_use inverse fs' = roots_in_use inverse fs ->
    agree_outside (unused_tables inverse fs fs') m m' ->
    avoids in_ n (unused_tables inverse fs fs') ->
    avoids out n (unused_tables inverse fs fs') ->
    avoids (roots_in_use inverse fs) (max_width fs) (unused_tables inverse fs fs') ->
    exists r m1 m1',
      fft_fr m out in_ inverse n fs = Done (r, m1) /\
      fft_fr m' out in_ inverse n fs' = Done (r, m1') /\
      agree_outside (unused_tables inverse fs fs') m1 m1' /\
      same_block out n m1 m1'.
Proof.
  intros m m' out in_ inverse n fs fs' Hv Hw Hr Hagree Hin Hout Hroots.
  set (U := unused_tables inverse fs fs') in *.
  assert (Hv' : valid_length n fs').
  { destruct Hv as [Hp [Hle Hmax]]. repeat split; [exact Hp | lia | lia]. }
  destruct (valid_length_pow2 n fs Hv) as [k [_ [_ Hn]]].
  rewrite !fft_fr_valid by assumption. rewrite Hw.
  destruct Hv as [_ [Hle Hmax]].
  destruct (table_stride_fits n (max_width fs)) as [Hs Hfit]; try lia.
  assert (Hengine : forall m1,
            fft_fr_fast max_depth m out in_ 1 (roots_in_use inverse fs)
              (max_width fs / n) n = Done m1 ->
            exists m1',
              fft_fr_fast max_depth m' out in_ 1 (roots_in_use inverse fs)
                (max_width fs / n) n = Done m1' /\
              agree_outside U m1 m1').
  { intros m1 E. apply (fft_fr_fast_agree U max_depth n m m') with (m1 := m1);
      try assumption; try lia.
    - intros j Hj. apply Hin. unfold within. lia.
    - intros j Hj. apply Hroots. unfold within. nia.
    - intros j Hj. apply Hout. unfold within. lia. }
  assert (Hblock : forall m1 m1', agree_outside U m1 m1' -> same_block out n m1 m1').
  { intros m1 m1' H i Hi. apply H, Hout. unfold within. lia. }
  destruct (fft_fr_fast_total max_depth n m out in_ 1 (roots_in_use inverse fs)
              (max_width fs / n) (log2_below_max_depth n ltac:(lia))) as [m1 E1].
  destruct (Hengine m1 E1) as [m1' [E1' A1]].
  unfold roots_in_use in *. destruct inverse.
  - rewrite Hr, E1, E1'. cbn [bind].
    do 3 eexists. split; [reflexivity|]. split; [reflexivity|].
    assert (A2 := scale_loop_agree U out n (fr_inv (fr_from_uint64 n)) m1 m1' Hout A1).
    split; [exact A2 | now apply Hblock].
  - rewrite Hr, E1, E1'. cbn [bind].
    do 3 eexists. split; [reflexivity|]. split; [reflexivity|].
    split; [exact A1 | now apply Hblock].
Qed.

End CodeClaims.

(** ** Claims that rest on the laws of the field *)

Section FieldClaims.

Context {fr_t : Type} {fr : Fr fr_t} {laws : FrLaws fr_t}.

Add Field fr_field_claims : fr_field.

Implicit Types m : mem fr_t.

(** C1: for every power of two [n = 2^k], every input and every
    consistent table of the roots of unity of order [n], the engine
    returns, and leaves in [out[i]] the direct evaluation
    [sum over j of in[j*stride] * root[((i*j) mod n) * roots_stride]], for
    every [i] below [n]; the memory it leaves is the one [fft_fr_slow]
    leaves.  The buffers are as the source documents them: [in] of length
    [n * stride] and the table of length [n * roots_stride], both apart
    from [out]. *)
Theorem fft_fr_fast_equals_direct_evaluation :
  forall (k fuel : nat) m (out in_ stride roots roots_stride : Z),
    (k < fuel)%nat ->
    2 ^ Z.of_nat k < uint64_modulus ->
    0 <= stride -> 2 ^ Z.of_nat k * stride < uint64_modulus ->
    0 <= roots_stride -> 2 ^ Z.of_nat k * roots_stride < uint64_modulus ->
    apart in_ stride (2 ^ Z.of_nat k) out (2 ^ Z.of_nat k) ->
    apart roots roots_stride (2 ^ Z.of_nat k) out (2 ^ Z.of_nat k) ->
    roots_table m roots roots_stride (2 ^ Z.of_nat k) ->
    exists m',
      fft_fr_fast fuel m out in_ stride roots roots_stride (2 ^ Z.of_nat k) = Done m' /\
      (forall i, 0 <= i < 2 ^ Z.of_nat k ->
         m' (out + i) =
         direct_evaluation m in_ stride roots roots_stride (2 ^ Z.of_nat k) i) /\
      (forall a, m' a = fft_fr_slow m out in_ stride roots roots_stride (2 ^ Z.of_nat k) a).
Proof.
  intros k fuel m out in_ stride roots roots_stride Hfuel Hn Hs Hns Hrs Hnrs Hin Hroots
         [w [Hw Htable]].
  pose proof (pow2_pos (Z.of_nat k) ltac:(lia)) as Hpos.
  destruct (fft_fr_fast_dft k fuel m out in_ stride roots roots_stride w)
    as [m' [E [F V]]]; try assumption.
  destruct (fft_fr_slow_direct k m out in_ stride roots roots_stride)
    as [Fs Vs]; try assumption.
  assert (Hdirect : forall i, 0 <= i < 2 ^ Z.of_nat k ->
            m' (out + i) =
            direct_evaluation m in_ stride roots roots_stride (2 ^ Z.of_nat k) i).
  { intros i Hi. rewrite V by exact Hi. symmetry.
    destruct Hw as [Hone _]. apply direct_evaluation_dft; try assumption; lia. }
  exists m'. split; [exact E|]. split; [exact Hdirect|].
  intros a.
  destruct (Z_le_gt_dec out a) as [Hlo|Hlo];
    [destruct (Z_lt_le_dec a (out + 2 ^ Z.of_nat k)) as [Hhi|Hhi]|].
  - replace a with (out + (a - out)) by lia.
    rewrite Hdirect, Vs by lia. reflexivity.
  - rewrite F, Fs by (unfold within; lia). reflexivity.
  - rewrite F, Fs by (unfold within; lia). reflexivity.
Qed.

(** The tables of a settings object, read with the stride of a valid
    length [n]: the powers of a root of unity of order [n], and the powers
    of its inverse. *)
Lemma settings_sub_tables m (fs : FFTSettings) (k : nat) :
  settings_tables m fs -> valid_length (2 ^ Z.of_nat k) fs ->
  exists w,
    primitive_root w (2 ^ Z.of_nat k) /\
    fr_mul w (fr_inv w) = fr_one /\
    powers_table m (expanded_roots_of_unity fs)
      (max_width fs / 2 ^ Z.of_nat k) (2 ^ Z.of_nat k) w /\
    powers_table m (reverse_roots_of_unity fs)
      (max_width fs / 2 ^ Z.of_nat k) (2 ^ Z.of_nat k) (fr_inv w).
Proof.
  intros [Hp [W [HW [Hfwd Hrev]]]] [_ [Hle Hmax]].
  apply is_power_of_two_spec in Hp. destruct Hp as [K [HK HN]].
  pose proof (pow2_pos (Z.of_nat k) ltac:(lia)) as Hpos.
  assert (Hk : Z.of_nat k <= K) by (apply (Z.pow_le_mono_r_iff 2); lia).
  set (n := 2 ^ Z.of_nat k) in *. set (N := max_width fs) in *.
  assert (Hsplit : N = (N / n) * n /\ 0 < N / n).
  { assert (E : N = 2 ^ (K - Z.of_nat k) * n).
    { rewrite HN. unfold n. rewrite <- Z.pow_add_r by lia. f_equal. lia. }
    pose proof (pow2_pos (K - Z.of_nat k) ltac:(lia)) as Hq.
    assert (Hdiv : N / n = 2 ^ (K - Z.of_nat k)) by (rewrite E; apply Z.div_mul; lia).
    rewrite Hdiv. split; [exact E | exact Hq]. }
  destruct Hsplit as [Hsplit Hc]. set (c := N / n) in *.
  assert (Hw : primitive_root (fr_pow W c) n).
  { apply primitive_root_power; try lia. now rewrite <- Hsplit. }
  assert (Hentry : forall j, 0 <= j < n ->
            m (expanded_roots_of_unity fs + j * c) = fr_pow (fr_pow W c) j).
  { intros j Hj. rewrite <- fr_pow_mul by lia.
    replace (j * c) with (c * j * 1) at 1 by lia. rewrite Hfwd by nia. reflexivity. }
  exists (fr_pow W c). split; [exact Hw|]. split; [|split].
  - destruct Hw as [Hone _]. apply (fr_mul_inv_root _ n); [lia | exact Hone].
  - exact Hentry.
  - intros j Hj. replace (j * c) with (j * c * 1) by lia.
    rewrite Hrev by nia. rewrite Z.mul_1_r, Hentry by exact Hj.
    destruct Hw as [Hone _]. apply (fr_inv_pow _ n); [lia | exact Hone].
Qed.

(** The driver on a valid length, with the table in use holding the powers
    of a root of unity of order [n]: the discrete Fourier transform of the
    input, scaled by the inverse of [n] in the inverse direction. *)
Lemma fft_fr_dft (k : nat) m (out in_ : Z) (inverse : bool) (fs : FFTSettings) w :
  valid_length (2 ^ Z.of_nat k) fs ->
  apart in_ 1 (2 ^ Z.of_nat k) out (2 ^ Z.of_nat k) ->
  apart (roots_in_use inverse fs) (max_width fs / 2 ^ Z.of_nat k) (2 ^ Z.of_nat k)
        out (2 ^ Z.of_nat k) ->
  primitive_root w (2 ^ Z.of_nat k) ->
  powers_table m (roots_in_use inverse fs) (max_width fs / 2 ^ Z.of_nat k)
    (2 ^ Z.of_nat k) w ->
  exists m',
    fft_fr m out in_ inverse (2 ^ Z.of_nat k) fs = Done (C_KZG_OK, m') /\
    same_outside out (2 ^ Z.of_nat k) m m' /\
    forall i, 0 <= i < 2 ^ Z.of_nat k ->
      m' (out + i) =
        let v := dft w (fun j => m (in_ + j * 1)) (2 ^ Z.of_nat k) i in
        if inverse then fr_mul v (fr_inv (fr_from_uint64 (2 ^ Z.of_nat k))) else v.
Proof.
  intros Hv Hin Hroots Hw Htable.
  destruct (fft_fr_transform k m out in_ inverse fs Hv Hin Hroots) as [m' [E [F V]]].
  exists m'. split; [exact E|]. split; [exact F|].
  intros i Hi. rewrite V by exact Hi. cbv zeta.
  rewrite <- transform_dft by assumption.
  rewrite (transform_ext k _ (fun j => m (in_ + j * 1)) _ (fr_pow w) i);
    [reflexivity | reflexivity | | exact Hi].
  intros j Hj. now apply Htable.
Qed.

(** C2: for every valid length [n] and every input [x] of [n] elements at
    [data], the forward transform into [coeffs] followed by the inverse
    transform of [coeffs] into [data'] returns success twice and leaves
    exactly [x] in [data']: [data'[i] = x[i]] for every [i] below [n].
    The tables are those of a settings object as the specification
    describes it, and the output of each call is apart from what the call
    reads. *)
Theorem fft_fr_round_trip :
  forall m (coeffs data data' n : Z) (fs : FFTSettings),
    valid_length n fs ->
    settings_tables m fs ->
    disjoint_blocks data n coeffs n ->
    disjoint_blocks (expanded_roots_of_unity fs) (max_width fs) coeffs n ->
    disjoint_blocks (reverse_roots_of_unity fs) (max_width fs) coeffs n ->
    disjoint_blocks coeffs n data' n ->
    disjoint_blocks (reverse_roots_of_unity fs) (max_width fs) data' n ->
    exists m1 m2,
      fft_fr m coeffs data false n fs = Done (C_KZG_OK, m1) /\
      fft_fr m1 data' coeffs true n fs = Done (C_KZG_OK, m2) /\
      forall i, 0 <= i < n -> m2 (data' + i) = m (data + i).
Proof.
  intros m coeffs data data' n fs Hv Htables Hdc Hfc Hrc Hcd Hrd.
  destruct (valid_length_pow2 n fs Hv) as [k [-> [Hk Hn]]].
  destruct (settings_sub_tables m fs k Htables Hv) as [w [Hw [Hww [Hfwd Hrev]]]].
  pose proof Hv as [_ [Hle Hmax]].
  destruct (table_stride_fits (2 ^ Z.of_nat k) (max_width fs)) as [Hs Hfit]; try lia.
  assert (Arc : apart (reverse_roots_of_unity fs) (max_width fs / 2 ^ Z.of_nat k)
                  (2 ^ Z.of_nat k) coeffs (2 ^ Z.of_nat k))
    by (apply (disjoint_apart _ _ _ (max_width fs)); [exact Hrc | lia..]).
  destruct (fft_fr_dft k m coeffs data false fs w) as [m1 [E1 [F1 V1]]];
    try assumption.
  { apply (disjoint_apart _ _ _ (2 ^ Z.of_nat k)); [exact Hdc | lia..]. }
  { apply (disjoint_apart _ _ _ (max_width fs)); [exact Hfc | lia..]. }
  destruct (fft_fr_dft k m1 data' coeffs true fs (fr_inv w)) as [m2 [E2 [F2 V2]]];
    try assumption.
  { apply (disjoint_apart _ _ _ (2 ^ Z.of_nat k)); [exact Hcd | lia..]. }
  { apply (disjoint_apart _ _ _ (max_width fs)); [exact Hrd | lia..]. }
  { now apply (primitive_root_inverse w). }
  { intros j Hj. cbn [roots_in_use].
    rewrite (apart_outside _ _ _ _ _ m m1 j Arc F1 Hj). now apply Hrev. }
  exists m1, m2. split; [exact E1|]. split; [exact E2|].
  intros i Hi. rewrite V2 by exact Hi. cbv zeta.
  unfold dft at 1.
  rewrite (fr_sum_ext _ _
             (fun j => fr_mul (dft w (fun l => m (data + l * 1)) (2 ^ Z.of_nat k) j)
                              (fr_pow (fr_inv w) (i * j)))).
  2:{ intros j Hj. rewrite Z.mul_1_r, V1 by lia. reflexivity. }
  fold (dft (fr_inv w) (fun j => dft w (fun l => m (data + l * 1)) (2 ^ Z.of_nat k) j)
            (2 ^ Z.of_nat k) i).
  rewrite (dft_inverse w (fr_inv w) (fun l => m (data + l * 1)) (2 ^ Z.of_nat k) i);
    try assumption; try lia.
  - now rewrite Z.mul_1_r.
  - now apply (primitive_root_length_nonzero w k).
Qed.

(** C7: for [n = 1] and any input element (with a settings object of width
    at least 1), [fft_fr] returns success and leaves [in[0]] in [out[0]],
    in the forward and in the inverse direction; nothing else changes. *)
Theorem fft_fr_single_element :
  forall m (out in_ : Z) (inverse : bool) (fs : FFTSettings),
    1 <= max_width fs < uint64_modulus ->
    exists m',
      fft_fr m out in_ inverse 1 fs = Done (C_KZG_OK, m') /\
      m' out = m in_ /\
      same_outside out 1 m m'.
Proof.
  intros m out in_ inverse fs Hmax.
  assert (Hv : valid_length 1 fs) by (split; [reflexivity | lia]).
  rewrite fft_fr_valid by exact Hv.
  unfold max_depth. rewrite !fft_fr_fast_base by (now compute). cbn [bind].
  destruct inverse.
  - eexists. split; [reflexivity|].
    unfold for_range. simpl for_loop. unfold scale.
    rewrite Z.add_0_r. split.
    + rewrite !store_same. change (fr_from_uint64 1) with (@fr_one fr_t fr).
      rewrite fr_inv_one. ring.
    + intros a Ha. unfold within in Ha. rewrite !store_other by lia. reflexivity.
  - eexists. split; [reflexivity|]. split.
    + apply store_same.
    + apply same_outside_store. unfold within. lia.
Qed.

End FieldClaims.

(** ** The code on the integers modulo 17 *)

Lemma prime_17 : Z.prime 17.
Proof.
  split; [lia|]. intros n Hn Hdiv.
  apply Z.mod_divide in Hdiv; [|lia].
  assert (H : n = 2 \/ n = 3 \/ n = 4 \/ n = 5 \/ n = 6 \/ n = 7 \/ n = 8 \/ n = 9 \/
              n = 10 \/ n = 11 \/ n = 12 \/ n = 13 \/ n = 14 \/ n = 15 \/ n = 16) by lia.
  repeat (destruct H as [->|H]; [discriminate Hdiv|]). subst. discriminate Hdiv.
Qed.

#[global] Instance F17_laws : FrLaws F17.t.
Proof.
  split.
  - exact (Zmod.field_theory 17 prime_17).
  - intros k _ _. apply Zmod.of_Z_add.
Qed.

(** Case analysis on an index of a short range. *)
Ltac index_cases k H :=
  let E := fresh "E" in
  assert (E : k = 0 \/ k = 1 \/ k = 2 \/ k = 3) by lia;
  clear H;
  repeat (destruct E as [E|E]; [subst k|]); try subst k.

Lemma F17_different (a b : F17.t) : Zmod.to_Z a <> Zmod.to_Z b -> a <> b.
Proof. intros H E. apply H. now rewrite E. Qed.

Lemma F17_root_4 : primitive_root (F17.of_Z 4) 4.
Proof.
  split; [reflexivity|]. intros k Hk.
  assert (E : k = 1 \/ k = 2 \/ k = 3) by lia.
  destruct E as [->|[->| ->]]; apply F17_different; vm_compute; discriminate.
Qed.

Lemma F17_roots_table : roots_table F17.memory 0 1 4.
Proof.
  exists (F17.of_Z 4). split; [exact F17_root_4|].
  intros k Hk. index_cases k Hk; reflexivity.
Qed.

Lemma F17_settings_tables : settings_tables F17.memory F17.settings.
Proof.
  split; [reflexivity|]. exists (F17.of_Z 4). split; [exact F17_root_4|]. split.
  - intros k Hk. cbn in Hk. index_cases k Hk; reflexivity.
  - intros k Hk. cbn in Hk. index_cases k Hk; reflexivity.
Qed.

Lemma F17_valid_4 : valid_length 4 F17.settings.
Proof. split; [reflexivity|]. rewrite uint64_modulus_eq. cbn. lia. Qed.

Lemma F17_valid_2 : valid_length 2 F17.settings.
Proof. split; [reflexivity|]. rewrite uint64_modulus_eq. cbn. lia. Qed.

Lemma F17_disjoint (p len q len' : Z) :
  p + len <= q \/ q + len' <= p -> disjoint_blocks p len q len'.
Proof. intros H a. unfold within. lia. Qed.

Lemma F17_apart (p n q len : Z) :
  p + n <= q \/ q + len <= p -> apart p 1 n q len.
Proof. intros H j Hj. unfold within. lia. Qed.

Lemma F17_agree :
  agree_outside (unused_tables false F17.settings F17.other_settings)
    F17.memory F17.other_memory.
Proof.
  intros a Ha. unfold F17.other_memory.
  destruct (((4 <=? a) && (a <? 8)) || ((24 <=? a) && (a <? 28))) eqn:E; [|reflexivity].
  exfalso. apply Ha. unfold unused_tables, within. cbn. lia.
Qed.

Lemma F17_avoids (p len : Z) :
  (p + len <= 4 \/ 8 <= p) /\ (p + len <= 24 \/ 28 <= p) ->
  avoids p len (unused_tables false F17.settings F17.other_settings).
Proof.
  intros H a Ha. unfold unused_tables, within in *. cbn. lia.
Qed.

(** ** The theorems at work on this memory *)

Lemma fft_fr_fast_equals_direct_evaluation_witness :
  exists m',
    fft_fr_fast 3 F17.memory 12 8 1 0 1 4 = Done m' /\
    (forall i, 0 <= i < 4 -> m' (12 + i) = direct_evaluation F17.memory 8 1 0 1 4 i) /\
    (forall a, m' a = fft_fr_slow F17.memory 12 8 1 0 1 4 a).
Proof.
  refine (fft_fr_fast_equals_direct_evaluation 2 3 F17.memory 12 8 1 0 1
            _ _ _ _ _ _ _ _ _).
  - lia.
  - reflexivity.
  - lia.
  - reflexivity.
  - lia.
  - reflexivity.
  - apply F17_apart. cbn. lia.
  - apply F17_apart. cbn. lia.
  - exact F17_roots_table.
Defined.

Lemma fft_fr_round_trip_witness :
  exists m1 m2,
    fft_fr F17.memory 12 8 false 4 F17.settings = Done (C_KZG_OK, m1) /\
    fft_fr m1 16 12 true 4 F17.settings = Done (C_KZG_OK, m2) /\
    forall i, 0 <= i < 4 -> m2 (16 + i) = F17.memory (8 + i).
Proof.
  refine (fft_fr_round_trip F17.memory 12 8 16 4 F17.settings _ _ _ _ _ _ _).
  - exact F17_valid_4.
  - exact F17_settings_tables.
  - apply F17_disjoint. lia.
  - apply F17_disjoint. cbn. lia.
  - apply F17_disjoint. cbn. lia.
  - apply F17_disjoint. lia.
  - apply F17_disjoint. cbn. lia.
Defined.

Lemma fft_fr_inverse_scaled_witness :
  exists m1 m',
    fft_fr_fast max_depth F17.memory 12 8 1 4 (4 / 4) 4 = Done m1 /\
    fft_fr F17.memory 12 8 true 4 F17.settings = Done (C_KZG_OK, m') /\
    (forall i, 0 <= i < 4 ->
       m' (12 + i) = fr_mul (m1 (12 + i)) (fr_inv (fr_from_uint64 4))) /\
    same_outside 12 4 m1 m'.
Proof.
  exact (fft_fr_inverse_scaled F17.memory 12 8 4 F17.settings F17_valid_4).
Defined.

Lemma fft_fr_fast_combination_witness :
  exists m3,
    fft_fr_fast 3 F17.memory 12 8 1 0 1 4 = Done m3 /\
    forall i, 0 <= i < 2 ->
      let m2 :=
        F17.returned
          (fft_fr_fast 2 (F17.returned (fft_fr_fast 2 F17.memory 12 8 2 0 2 2))
             14 9 2 0 2 2) in
      m3 (12 + i + 2) =
        fr_sub (m2 (12 + i)) (fr_mul (m2 (12 + i + 2)) (m2 (0 + i * 1))) /\
      m3 (12 + i) =
        fr_add (m2 (12 + i)) (fr_mul (m2 (12 + i + 2)) (m2 (0 + i * 1))).
Proof.
  refine (fft_fr_fast_combination 2 F17.memory 12 8 1 0 1 4
            (F17.returned (fft_fr_fast 2 F17.memory 12 8 2 0 2 2))
            (F17.returned
               (fft_fr_fast 2 (F17.returned (fft_fr_fast 2 F17.memory 12 8 2 0 2 2))
                  14 9 2 0 2 2))
            _ _ _ _ _ _ _).
  - reflexivity.
  - reflexivity.
  - lia.
  - discriminate.
  - apply F17_apart. cbn. lia.
  - reflexivity.
  - reflexivity.
Defined.

Lemma fft_fr_stride_independent_witness :
  exists m1 m2,
    fft_fr F17.memory 12 8 false 2 F17.small_settings = Done (C_KZG_OK, m1) /\
    fft_fr F17.memory 12 8 false 2 F17.settings = Done (C_KZG_OK, m2) /\
    forall a, m1 a = m2 a.
Proof.
  refine (fft_fr_stride_independent F17.memory 12 8 false 2 F17.small_settings
            F17.settings _ _ _ _ _ _).
  - exact F17_valid_2.
  - reflexivity.
  - intros j Hj. assert (E : j = 0 \/ j = 1) by lia. destruct E as [-> | ->]; reflexivity.
  - apply F17_disjoint. lia.
  - apply F17_disjoint. cbn. lia.
  - apply F17_disjoint. cbn. lia.
Defined.

Lemma fft_fr_single_element_witness :
  exists m',
    fft_fr F17.memory 12 8 true 1 F17.settings = Done (C_KZG_OK, m') /\
    m' 12 = F17.memory 8 /\
    same_outside 12 1 F17.memory m'.
Proof.
  refine (fft_fr_single_element F17.memory 12 8 true F17.settings _).
  rewrite uint64_modulus_eq. cbn. lia.
Defined.

Lemma fft_fr_fast_terminates_witness :
  (0 < 6 / 2 -> 0 < 6 / 2 < 6) /\
  exists m',
    fft_fr_fast 3 F17.memory 12 8 1 0 1 6 = Done m' /\
    forall fuel', (3 <= fuel')%nat -> fft_fr_fast fuel' F17.memory 12 8 1 0 1 6 = Done m'.
Proof.
  refine (fft_fr_fast_terminates 3 F17.memory 12 8 1 0 1 6 _).
  cbn. lia.
Defined.

Lemma fft_fr_writes_out_only_witness :
  (forall m',
     fft_fr_fast 3 F17.memory 12 8 1 0 1 4 = Done m' ->
     same_outside 12 4 F17.memory m' /\
     (forall p len, disjoint_blocks p len 12 4 -> same_block p len F17.memory m') /\
     (0 < 4 / 2 ->
      exists m1 m2,
        fft_fr_fast (Nat.pred 3) F17.memory 12 8 (u64_mul 1 2) 0 (u64_mul 1 2) (4 / 2)
          = Done m1 /\
        fft_fr_fast (Nat.pred 3) m1 (12 + 4 / 2) (8 + 1) (u64_mul 1 2) 0 (u64_mul 1 2)
          (4 / 2) = Done m2 /\
        same_outside 12 (4 / 2) F17.memory m1 /\
        same_outside (12 + 4 / 2) (4 / 2) m1 m2 /\
        disjoint_blocks 12 (4 / 2) (12 + 4 / 2) (4 / 2))) /\
  (forall r m',
     fft_fr F17.memory 12 8 false 4 F17.settings = Done (r, m') ->
     same_outside 12 4 F17.memory m' /\
     (forall p len, disjoint_blocks p len 12 4 -> same_block p len F17.memory m')).
Proof.
  refine (fft_fr_writes_out_only 3 F17.memory 12 8 1 0 1 4 false F17.settings _).
  rewrite uint64_modulus_eq. lia.
Defined.

Lemma fft_fr_unused_table_witness :
  exists r m1 m1',
    fft_fr F17.memory 12 8 false 4 F17.settings = Done (r, m1) /\
    fft_fr F17.other_memory 12 8 false 4 F17.other_settings = Done (r, m1') /\
    agree_outside (unused_tables false F17.settings F17.other_settings) m1 m1' /\
    same_block 12 4 m1 m1'.
Proof.
  refine (fft_fr_unused_table F17.memory F17.other_memory 12 8 false 4
            F17.settings F17.other_settings _ _ _ _ _ _ _).
  - exact F17_valid_4.
  - reflexivity.
  - reflexivity.
  - exact F17_agree.
  - apply F17_avoids. lia.
  - apply F17_avoids. lia.
  - apply F17_avoids. cbn. lia.
Defined.

(** ** The code run on this memory *)

(** The forward transform of [3; 1; 4; 1] at the root 4 modulo 17. *)
Example fft_fr_forward_run :
  F17.outcome (fft_fr F17.memory 12 8 false 4 F17.settings) 12 4
  = Done (C_KZG_OK, 9 :: 16 :: 5 :: 16 :: nil).
Proof. vm_compute. reflexivity. Qed.

Example fft_fr_slow_run :
  F17.dump (fft_fr_slow F17.memory 12 8 1 0 1 4) 12 4 = 9 :: 16 :: 5 :: 16 :: nil.
Proof. vm_compute. reflexivity. Qed.

(** The inverse transform of that output. *)
Example fft_fr_inverse_run :
  F17.outcome
    (r <- fft_fr F17.memory 12 8 false 4 F17.settings ;;
     fft_fr (snd r) 16 12 true 4 F17.settings) 16 4
  = Done (C_KZG_OK, 3 :: 1 :: 4 :: 1 :: nil).
Proof. vm_compute. reflexivity. Qed.

(** Lengths that are refused, and the length zero. *)
Example fft_fr_not_power_of_two_run :
  F17.outcome (fft_fr F17.memory 12 8 false 3 F17.settings) 12 4
  = Done (C_KZG_BADARGS, 0 :: 0 :: 0 :: 0 :: nil).
Proof. vm_compute. reflexivity. Qed.

Example fft_fr_too_long_run :
  F17.outcome (fft_fr F17.memory 12 8 false 8 F17.settings) 12 4
  = Done (C_KZG_BADARGS, 0 :: 0 :: 0 :: 0 :: nil).
Proof. vm_compute. reflexivity. Qed.

Example fft_fr_zero_length_run :
  F17.outcome (fft_fr F17.memory 12 8 false 0 F17.settings) 12 4 = Undefined.
Proof. vm_compute. reflexivity. Qed.

(** * Further properties of the code *)

(** ** The slow transform and the engine, without the laws of the field *)

Section MoreCode.

Context {fr_t : Type} {fr : Fr fr_t}.

Implicit Types m : mem fr_t.

(** [fft_fr_slow] changes the memory in the block of [n] elements at
    [out] only, for every length, stride and table; for [n = 0] it changes
    nothing. *)
Theorem fft_fr_slow_frame :
  forall m (out in_ stride roots roots_stride n : Z),
    same_outside out n m (fft_fr_slow m out in_ stride roots roots_stride n).
Proof.
  intros m out in_ stride roots roots_stride n. unfold fft_fr_slow.
  destruct (Z_le_gt_dec n 0) as [Hn|Hn].
  - unfold for_range. replace (Z.to_nat (n - 0)) with O by lia. apply same_outside_refl.
  - apply (for_range_invariant (fun _ t => same_outside out n m t)); [lia| |].
    + apply same_outside_refl.
    + intros j t Hj Ht. eapply same_outside_trans; [exact Ht|].
      unfold slow_row. apply same_outside_store. unfold within. lia.
Qed.

(** [transform] reads the first half of the table only. *)
Lemma transform_ext_half :
  forall (k : nat) (x x' r r' : Z -> fr_t) (i : Z),
    (forall j, 0 <= j < 2 ^ Z.of_nat k -> x j = x' j) ->
    (forall j, 0 <= j < 2 ^ Z.of_nat k / 2 -> r j = r' j) ->
    0 <= i < 2 ^ Z.of_nat k ->
    transform k x r i = transform k x' r' i.
Proof.
  induction k as [|k IH]; intros x x' r r' i Hx Hr Hi.
  - simpl. apply Hx. simpl. lia.
  - rewrite pow2_half in Hr. rewrite pow2_of_nat_succ in *.
    pose proof (pow2_pos (Z.of_nat k) ltac:(lia)) as Hpos.
    pose proof (Z.mul_div_le (2 ^ Z.of_nat k) 2 ltac:(lia)) as Hhalf.
    assert (Hsub : forall y y' i', (forall j, 0 <= j < 2 ^ Z.of_nat k -> y j = y' j) ->
              0 <= i' < 2 ^ Z.of_nat k ->
              transform k y (fun j => r (2 * j)) i' = transform k y' (fun j => r' (2 * j)) i').
    { intros y y' i' Hy Hi'. apply IH; [exact Hy | | exact Hi'].
      intros j Hj. apply Hr. lia. }
    cbn [transform]. cbv zeta.
    destruct (i <? 2 ^ Z.of_nat k) eqn:E.
    + apply Z.ltb_lt in E.
      rewrite (Hsub (fun j => x (2 * j)) (fun j => x' (2 * j)) i)
        by (try (intros j Hj; apply Hx); lia).
      rewrite (Hsub (fun j => x (2 * j + 1)) (fun j => x' (2 * j + 1)) i)
        by (try (intros j Hj; apply Hx); lia).
      rewrite (Hr i) by lia. reflexivity.
    + apply Z.ltb_ge in E.
      rewrite (Hsub (fun j => x (2 * j)) (fun j => x' (2 * j)) (i - 2 ^ Z.of_nat k))
        by (try (intros j Hj; apply Hx); lia).
      rewrite (Hsub (fun j => x (2 * j + 1)) (fun j => x' (2 * j + 1)) (i - 2 ^ Z.of_nat k))
        by (try (intros j Hj; apply Hx); lia).
      rewrite (Hr (i - 2 ^ Z.of_nat k)) by lia. reflexivity.
Qed.

(** What the engine leaves in [out] is a function of the [n] input
    elements and of the first [n / 2] entries of the table: two runs from
    memories that hold the same values there, and anything in [out], in
    the second half of the table and elsewhere, return and leave the same
    [n] elements in [out]. *)
Theorem fft_fr_fast_determined :
  forall (k fuel : nat) m m' (out in_ stride roots roots_stride : Z),
    (k < fuel)%nat ->
    2 ^ Z.of_nat k < uint64_modulus ->
    0 <= stride -> 2 ^ Z.of_nat k * stride < uint64_modulus ->
    0 <= roots_stride -> 2 ^ Z.of_nat k * roots_stride < uint64_modulus ->
    apart in_ stride (2 ^ Z.of_nat k) out (2 ^ Z.of_nat k) ->
    apart roots roots_stride (2 ^ Z.of_nat k) out (2 ^ Z.of_nat k) ->
    (forall j, 0 <= j < 2 ^ Z.of_nat k ->
       m' (in_ + j * stride) = m (in_ + j * stride)) ->
    (forall j, 0 <= j < 2 ^ Z.of_nat k / 2 ->
       m' (roots + j * roots_stride) = m (roots + j * roots_stride)) ->
    exists m1 m1',
      fft_fr_fast fuel m out in_ stride roots roots_stride (2 ^ Z.of_nat k) = Done m1 /\
      fft_fr_fast fuel m' out in_ stride roots roots_stride (2 ^ Z.of_nat k) = Done m1' /\
      same_block out (2 ^ Z.of_nat k) m1 m1'.
Proof.
  intros k fuel m m' out in_ stride roots roots_stride Hfuel Hn Hs Hns Hrs Hnrs Hin Hroots
         Hsame_in Hsame_roots.
  destruct (fft_fr_fast_transform k fuel m out in_ stride roots roots_stride)
    as [m1 [E1 [_ V1]]]; try assumption.
  destruct (fft_fr_fast_transform k fuel m' out in_ stride roots roots_stride)
    as [m1' [E1' [_ V1']]]; try assumption.
  exists m1, m1'. split; [exact E1|]. split; [exact E1'|].
  intros i Hi. rewrite V1, V1' by exact Hi.
  apply transform_ext_half; assumption.
Qed.

End MoreCode.

(** ** The slow transform and the driver, with the laws of the field *)

Section MoreField.

Context {fr_t : Type} {fr : Fr fr_t} {laws : FrLaws fr_t}.

Add Field fr_field_more : fr_field.

Implicit Types m : mem fr_t.
Implicit Types w a b c : fr_t.

(** *** The slow transform at any length *)

(** The index [(i * j) % n] of the source is [(i * j) mod n] when [n]
    divides [2^64] or when the product cannot wrap. *)
Lemma slow_root_index_any (n i j : Z) :
  (n | uint64_modulus) \/ n * n <= uint64_modulus ->
  0 <= i < n -> 0 <= j < n ->
  u64_mul i j mod n = (i * j) mod n.
Proof.
  intros [Hdiv|Hsq] Hi Hj.
  - now apply slow_root_index.
  - rewrite u64_mul_small by nia. reflexivity.
Qed.

Lemma slow_inner_loop_any m (in_ stride roots roots_stride n i : Z) :
  0 < n -> (n | uint64_modulus) \/ n * n <= uint64_modulus ->
  0 <= stride -> n * stride < uint64_modulus ->
  0 <= roots_stride -> n * roots_stride < uint64_modulus ->
  0 <= i < n ->
  for_range 1 n (slow_term m in_ stride roots roots_stride n i) (fr_mul (m in_) (m roots)) =
  direct_evaluation m in_ stride roots roots_stride n i.
Proof.
  intros Hn Hidx Hs Hns Hrs Hnrs Hi. unfold direct_evaluation.
  apply (for_range_invariant
           (fun j last =>
              last = fr_sum (Z.to_nat j)
                       (fun j => fr_mul (m (in_ + j * stride))
                                        (m (roots + (i * j) mod n * roots_stride))))).
  - lia.
  - simpl. rewrite Z.mul_0_r, Z.mod_0_l by lia. rewrite !Z.mul_0_l, !Z.add_0_r. ring.
  - intros j last Hj ->. rewrite fr_sum_succ by lia. unfold slow_term. cbv zeta.
    pose proof (Z.mod_pos_bound (i * j) n Hn) as Hmod.
    rewrite slow_root_index_any by (try assumption; lia).
    rewrite !u64_mul_small by nia. reflexivity.
Qed.

(** For every length [n] whose index products [i * j] cannot wrap (or
    that divides [2^64]), a power of two or not, [fft_fr_slow] leaves in
    [out[i]] the direct evaluation
    [sum over j of in[j*stride] * roots[((i*j) mod n) * roots_stride]],
    when the input and the table lie apart from [out]. *)
Theorem fft_fr_slow_any_length :
  forall m (out in_ stride roots roots_stride n : Z),
    0 < n -> (n | uint64_modulus) \/ n * n <= uint64_modulus ->
    0 <= stride -> n * stride < uint64_modulus ->
    0 <= roots_stride -> n * roots_stride < uint64_modulus ->
    apart in_ stride n out n ->
    apart roots roots_stride n out n ->
    forall i, 0 <= i < n ->
      fft_fr_slow m out in_ stride roots roots_stride n (out + i) =
      direct_evaluation m in_ stride roots roots_stride n i.
Proof.
  intros m out in_ stride roots roots_stride n Hn Hidx Hs Hns Hrs Hnrs Hin Hroots.
  unfold fft_fr_slow.
  enough (same_outside out n m
            (for_range 0 n (slow_row out in_ stride roots roots_stride n) m) /\
          (forall i, 0 <= i < n ->
             for_range 0 n (slow_row out in_ stride roots roots_stride n) m (out + i) =
             direct_evaluation m in_ stride roots roots_stride n i))
    as [_ H] by exact H.
  apply (for_range_invariant
           (fun r t =>
              same_outside out n m t /\
              forall i, 0 <= i < r ->
                t (out + i) = direct_evaluation m in_ stride roots roots_stride n i)).
  - lia.
  - split; [apply same_outside_refl | intros; lia].
  - intros r t Hr [Hframe Hdone]. unfold slow_row. cbv zeta.
    rewrite slow_inner_loop_any by (try assumption; lia).
    rewrite (direct_evaluation_ext _ m t)
      by (try (intros j Hj; eapply apart_outside; eassumption); lia).
    split.
    + eapply same_outside_trans; [exact Hframe|].
      apply same_outside_store. unfold within. lia.
    + intros i Hi. destruct (Z.eq_dec i r) as [->|Hne].
      * now rewrite store_same.
      * rewrite store_other by lia. apply Hdone. lia.
Qed.

(** *** The transform is linear *)

Lemma transform_linear :
  forall (k : nat) a b (x y r : Z -> fr_t) (i : Z),
    transform k (fun j => fr_add (fr_mul a (x j)) (fr_mul b (y j))) r i =
    fr_add (fr_mul a (transform k x r i)) (fr_mul b (transform k y r i)).
Proof.
  induction k as [|k IH]; intros a b x y r i; [reflexivity|].
  cbn [transform]. cbv zeta.
  assert (Heven := fun i' =>
            IH a b (fun j => x (2 * j)) (fun j => y (2 * j)) (fun j => r (2 * j)) i').
  assert (Hodd := fun i' =>
            IH a b (fun j => x (2 * j + 1)) (fun j => y (2 * j + 1)) (fun j => r (2 * j)) i').
  cbv beta in Heven, Hodd. rewrite !Heven, !Hodd.
  destruct (i <? 2 ^ Z.of_nat k); ring.
Qed.

(** [fft_fr] is linear in its input, in either direction: when the input
    of a third run is [a * x + b * y], element by element, for the inputs
    [x] and [y] of two other runs on the same table, its output is
    [a * X + b * Y] for their outputs [X] and [Y]. *)
Theorem fft_fr_linear :
  forall a b mx my mz (out in_ : Z) (inverse : bool) (n : Z) (fs : FFTSettings),
    valid_length n fs ->
    disjoint_blocks in_ n out n ->
    disjoint_blocks (roots_in_use inverse fs) (max_width fs) out n ->
    same_block (roots_in_use inverse fs) (max_width fs) mx my ->
    same_block (roots_in_use inverse fs) (max_width fs) mx mz ->
    (forall j, 0 <= j < n ->
       mz (in_ + j) = fr_add (fr_mul a (mx (in_ + j))) (fr_mul b (my (in_ + j)))) ->
    exists ox oy oz,
      fft_fr mx out in_ inverse n fs = Done (C_KZG_OK, ox) /\
      fft_fr my out in_ inverse n fs = Done (C_KZG_OK, oy) /\
      fft_fr mz out in_ inverse n fs = Done (C_KZG_OK, oz) /\
      forall i, 0 <= i < n ->
        oz (out + i) = fr_add (fr_mul a (ox (out + i))) (fr_mul b (oy (out + i))).
Proof.
  intros a b mx my mz out in_ inverse n fs Hv Hin Hroots Hty Htz Hz.
  destruct (valid_length_pow2 n fs Hv) as [k [-> [Hk Hn]]].
  pose proof Hv as [_ [Hle Hmax]].
  destruct (table_stride_fits (2 ^ Z.of_nat k) (max_width fs)) as [Hs Hfit]; try lia.
  assert (Ain : apart in_ 1 (2 ^ Z.of_nat k) out (2 ^ Z.of_nat k))
    by (apply (disjoint_apart _ _ _ (2 ^ Z.of_nat k)); [exact Hin | lia..]).
  assert (Aroots : apart (roots_in_use inverse fs) (max_width fs / 2 ^ Z.of_nat k)
                     (2 ^ Z.of_nat k) out (2 ^ Z.of_nat k))
    by (apply (disjoint_apart _ _ _ (max_width fs)); [exact Hroots | lia..]).
  destruct (fft_fr_transform k mx out in_ inverse fs Hv Ain Aroots) as [ox [Ex [_ Vx]]].
  destruct (fft_fr_transform k my out in_ inverse fs Hv Ain Aroots) as [oy [Ey [_ Vy]]].
  destruct (fft_fr_transform k mz out in_ inverse fs Hv Ain Aroots) as [oz [Ez [_ Vz]]].
  exists ox, oy, oz. split; [exact Ex|]. split; [exact Ey|]. split; [exact Ez|].
  intros i Hi. rewrite Vx, Vy, Vz by exact Hi. cbv zeta.
  set (r := fun j => mx (roots_in_use inverse fs + j * (max_width fs / 2 ^ Z.of_nat k))).
  assert (Hentry : forall m', same_block (roots_in_use inverse fs) (max_width fs) mx m' ->
            forall j, 0 <= j < 2 ^ Z.of_nat k ->
              m' (roots_in_use inverse fs + j * (max_width fs / 2 ^ Z.of_nat k)) = r j).
  { intros m' Hm' j Hj. apply Hm'. nia. }
  rewrite (transform_ext k (fun j => my (in_ + j * 1)) (fun j => my (in_ + j * 1)) _ r i)
    by (try reflexivity; try exact Hi; apply (Hentry my Hty)).
  rewrite (transform_ext k (fun j => mz (in_ + j * 1))
             (fun j => fr_add (fr_mul a (mx (in_ + j * 1))) (fr_mul b (my (in_ + j * 1))))
             _ r i)
    by (try exact Hi; try apply (Hentry mz Htz);
        intros j Hj; rewrite !Z.mul_1_r; now apply Hz).
  rewrite (transform_linear k a b (fun j => mx (in_ + j * 1)) (fun j => my (in_ + j * 1))).
  destruct inverse; ring.
Qed.

(** *** What the driver computes *)

Lemma dft_ext w (x y : Z -> fr_t) (n i : Z) :
  (forall j, 0 <= j < n -> x j = y j) -> dft w x n i = dft w y n i.
Proof.
  intros H. unfold dft. apply fr_sum_ext. intros j Hj. rewrite H by lia. reflexivity.
Qed.

Lemma dft_scale w c (x : Z -> fr_t) (n i : Z) :
  dft w (fun j => fr_mul (x j) c) n i = fr_mul (dft w x n i) c.
Proof.
  unfold dft. rewrite <- fr_sum_scale_r. apply fr_sum_ext. intros j Hj. ring.
Qed.

(** On a valid length [n], with the tables of a settings object as the
    specification describes them and the input and the table in use apart
    from [out], [fft_fr] returns success, and there is a root of unity
    [w] of order [n], whose powers the forward table holds at the stride
    [max_width / n], such that the forward transform leaves in [out[i]]
    the value at [w^i] of the polynomial with the coefficients [in[j]],
    [sum over j of in[j] * w^(i*j)], and the inverse transform leaves the
    same sum for the inverse of [w], times the inverse of [n]. *)
Theorem fft_fr_evaluates :
  forall m (out in_ : Z) (inverse : bool) (n : Z) (fs : FFTSettings),
    valid_length n fs ->
    settings_tables m fs ->
    disjoint_blocks in_ n out n ->
    disjoint_blocks (roots_in_use inverse fs) (max_width fs) out n ->
    exists w m',
      primitive_root w n /\
      powers_table m (expanded_roots_of_unity fs) (max_width fs / n) n w /\
      fft_fr m out in_ inverse n fs = Done (C_KZG_OK, m') /\
      forall i, 0 <= i < n ->
        m' (out + i) =
          if inverse
          then fr_mul (dft (fr_inv w) (fun j => m (in_ + j)) n i)
                      (fr_inv (fr_from_uint64 n))
          else dft w (fun j => m (in_ + j)) n i.
Proof.
  intros m out in_ inverse n fs Hv Htables Hin Hroots.
  destruct (valid_length_pow2 n fs Hv) as [k [-> [Hk Hn]]].
  destruct (settings_sub_tables m fs k Htables Hv) as [w [Hw [Hww [Hfwd Hrev]]]].
  pose proof Hv as [_ [Hle Hmax]].
  destruct (table_stride_fits (2 ^ Z.of_nat k) (max_width fs)) as [Hs Hfit]; try lia.
  assert (Ain : apart in_ 1 (2 ^ Z.of_nat k) out (2 ^ Z.of_nat k))
    by (apply (disjoint_apart _ _ _ (2 ^ Z.of_nat k)); [exact Hin | lia..]).
  assert (Aroots : apart (roots_in_use inverse fs) (max_width fs / 2 ^ Z.of_nat k)
                     (2 ^ Z.of_nat k) out (2 ^ Z.of_nat k))
    by (apply (disjoint_apart _ _ _ (max_width fs)); [exact Hroots | lia..]).
  assert (Hx : forall j, 0 <= j < 2 ^ Z.of_nat k -> m (in_ + j * 1) = m (in_ + j))
    by (intros j _; now rewrite Z.mul_1_r).
  exists w. destruct inverse.
  - destruct (fft_fr_dft k m out in_ true fs (fr_inv w)) as [m' [E [_ V]]];
      try assumption.
    { now apply (primitive_root_inverse w). }
    exists m'. split; [exact Hw|]. split; [exact Hfwd|]. split; [exact E|].
    intros i Hi. rewrite V by exact Hi. cbv zeta.
    now rewrite (dft_ext _ _ (fun j => m (in_ + j)) _ _ Hx).
  - destruct (fft_fr_dft k m out in_ false fs w) as [m' [E [_ V]]]; try assumption.
    exists m'. split; [exact Hw|]. split; [exact Hfwd|]. split; [exact E|].
    intros i Hi. rewrite V by exact Hi. cbv zeta.
    now rewrite (dft_ext _ _ (fun j => m (in_ + j)) _ _ Hx).
Qed.

(** *** The two directions, the other way round *)

(** The inverse transform followed by the forward transform also returns
    the input: for every valid length [n] and every input [x] of [n]
    elements at [data], [fft_fr] with [inverse = true] into [coeffs] and
    then with [inverse = false] from [coeffs] into [data'] returns success
    twice and leaves [data'[i] = x[i]] for every [i] below [n]. *)
Theorem fft_fr_round_trip_reverse :
  forall m (coeffs data data' n : Z) (fs : FFTSettings),
    valid_length n fs ->
    settings_tables m fs ->
    disjoint_blocks data n coeffs n ->
    disjoint_blocks (reverse_roots_of_unity fs) (max_width fs) coeffs n ->
    disjoint_blocks (expanded_roots_of_unity fs) (max_width fs) coeffs n ->
    disjoint_blocks coeffs n data' n ->
    disjoint_blocks (expanded_roots_of_unity fs) (max_width fs) data' n ->
    exists m1 m2,
      fft_fr m coeffs data true n fs = Done (C_KZG_OK, m1) /\
      fft_fr m1 data' coeffs false n fs = Done (C_KZG_OK, m2) /\
      forall i, 0 <= i < n -> m2 (data' + i) = m (data + i).
Proof.
  intros m coeffs data data' n fs Hv Htables Hdc Hrc Hfc Hcd Hfd.
  destruct (valid_length_pow2 n fs Hv) as [k [-> [Hk Hn]]].
  destruct (settings_sub_tables m fs k Htables Hv) as [w [Hw [Hww [Hfwd Hrev]]]].
  pose proof Hv as [_ [Hle Hmax]].
  destruct (table_stride_fits (2 ^ Z.of_nat k) (max_width fs)) as [Hs Hfit]; try lia.
  pose proof (primitive_root_inverse w (fr_inv w) _ Hww Hw) as Hw'.
  assert (Afc : apart (expanded_roots_of_unity fs) (max_width fs / 2 ^ Z.of_nat k)
                  (2 ^ Z.of_nat k) coeffs (2 ^ Z.of_nat k))
    by (apply (disjoint_apart _ _ _ (max_width fs)); [exact Hfc | lia..]).
  destruct (fft_fr_dft k m coeffs data true fs (fr_inv w)) as [m1 [E1 [F1 V1]]];
    try assumption.
  { apply (disjoint_apart _ _ _ (2 ^ Z.of_nat k)); [exact Hdc | lia..]. }
  { apply (disjoint_apart _ _ _ (max_width fs)); [exact Hrc | lia..]. }
  destruct (fft_fr_dft k m1 data' coeffs false fs w) as [m2 [E2 [F2 V2]]];
    try assumption.
  { apply (disjoint_apart _ _ _ (2 ^ Z.of_nat k)); [exact Hcd | lia..]. }
  { apply (disjoint_apart _ _ _ (max_width fs)); [exact Hfd | lia..]. }
  { intros j Hj. cbn [roots_in_use].
    rewrite (apart_outside _ _ _ _ _ m m1 j Afc F1 Hj). now apply Hfwd. }
  exists m1, m2. split; [exact E1|]. split; [exact E2|].
  intros i Hi. rewrite V2 by exact Hi. cbv zeta.
  rewrite (dft_ext w _
             (fun j => fr_mul (dft (fr_inv w) (fun l => m (data + l * 1)) (2 ^ Z.of_nat k) j)
                              (fr_inv (fr_from_uint64 (2 ^ Z.of_nat k)))))
    by (intros j Hj; rewrite Z.mul_1_r, V1 by lia; reflexivity).
  rewrite dft_scale.
  rewrite (dft_inverse (fr_inv w) w (fun l => m (data + l * 1)) (2 ^ Z.of_nat k) i);
    try assumption; try lia.
  - now rewrite Z.mul_1_r.
  - rewrite <- Hww. ring.
  - now apply (primitive_root_length_nonzero w k).
Qed.

(** *** The forward transform, twice *)

Lemma mod_wrapped (n e : Z) : n <= e < 2 * n -> e mod n = e - n.
Proof.
  intros H. replace e with ((e - n) + 1 * n) at 1 by lia.
  rewrite Z_mod_plus_full. apply Z.mod_small. lia.
Qed.

(** The index [l] that [i] is reflected to: [l + i] is [0] modulo [n]. *)
Lemma reflected_index (n i l : Z) :
  0 <= i < n -> 0 <= l < n -> ((l + i) mod n = 0 <-> l = (n - i) mod n).
Proof.
  intros Hi Hl.
  assert (Hneg : (n - i) mod n = if i =? 0 then 0 else n - i).
  { destruct (i =? 0) eqn:E.
    - apply Z.eqb_eq in E. subst i. rewrite Z.sub_0_r. apply Z.mod_same. lia.
    - apply Z.eqb_neq in E. apply Z.mod_small. lia. }
  rewrite Hneg.
  destruct (Z_lt_le_dec (l + i) n) as [Hlt|Hge].
  - rewrite Z.mod_small by lia. destruct (i =? 0) eqn:E.
    + apply Z.eqb_eq in E. lia.
    + apply Z.eqb_neq in E. lia.
  - rewrite mod_wrapped by lia. destruct (i =? 0) eqn:E.
    + apply Z.eqb_eq in E. lia.
    + apply Z.eqb_neq in E. lia.
Qed.

Lemma primitive_root_power_one w (n e : Z) :
  0 < n -> 0 <= e -> primitive_root w n ->
  (fr_pow w e = fr_one <-> e mod n = 0).
Proof.
  intros Hn He [Hone Hprim].
  pose proof (Z.mod_pos_bound e n Hn) as Hmod.
  rewrite <- (fr_pow_mod w n e Hn He Hone). split.
  - intros E. destruct (Z.eq_dec (e mod n) 0) as [H0|H0]; [exact H0|].
    exfalso. apply (Hprim (e mod n)); [lia | exact E].
  - intros ->. reflexivity.
Qed.

(** The discrete Fourier transform applied twice: the sequence in
    reflected order, times the length. *)
Lemma dft_twice w (x : Z -> fr_t) (n i : Z) :
  primitive_root w n -> 0 < n < uint64_modulus -> 0 <= i < n ->
  dft w (fun j => dft w x n j) n i = fr_mul (x ((n - i) mod n)) (fr_from_uint64 n).
Proof.
  intros Hw Hn Hi.
  pose proof (Z.mod_pos_bound (n - i) n ltac:(lia)) as Hrefl.
  unfold dft.
  rewrite (fr_sum_ext _ _
             (fun j => fr_sum (Z.to_nat n)
                         (fun l => fr_mul (x l) (fr_pow (fr_pow w (l + i)) j)))).
  2:{ intros j Hj. rewrite <- fr_sum_scale_r. apply fr_sum_ext. intros l Hl.
      rewrite <- fr_pow_mul by lia.
      replace ((l + i) * j) with (j * l + i * j) by lia.
      rewrite fr_pow_add by nia. ring. }
  rewrite fr_sum_swap.
  rewrite (fr_sum_single _ _ ((n - i) mod n)).
  - rewrite fr_sum_scale_l. f_equal.
    assert (E : fr_pow w ((n - i) mod n + i) = fr_one).
    { apply (primitive_root_power_one w n); [lia | lia | exact Hw|].
      apply reflected_index; [lia | lia | reflexivity]. }
    rewrite (fr_sum_ext _ _ (fun _ => fr_one))
      by (intros j Hj; rewrite E; apply fr_pow_one).
    rewrite fr_sum_ones by lia. f_equal. lia.
  - lia.
  - intros l Hl Hne. rewrite fr_sum_scale_l.
    rewrite fr_sum_root_of_unity; [ring | |].
    + intros E. apply Hne.
      apply (primitive_root_power_one w n) in E; [|lia|lia|exact Hw].
      apply reflected_index in E; [exact E | lia | lia].
    + rewrite Z2Nat.id by lia. rewrite <- fr_pow_mul by lia.
      rewrite Z.mul_comm, fr_pow_mul by lia.
      destruct Hw as [-> _]. apply fr_pow_one.
Qed.

(** Two forward transforms in a row, from [a] into [b] and from [b] into
    [c], on a valid length [n]: both return success, and [c[i]] is
    [n * a[(n - i) mod n]], the input in reflected order times the length
    embedded in the field. *)
Theorem fft_fr_twice :
  forall m (a b c n : Z) (fs : FFTSettings),
    valid_length n fs ->
    settings_tables m fs ->
    disjoint_blocks a n b n ->
    disjoint_blocks (expanded_roots_of_unity fs) (max_width fs) b n ->
    disjoint_blocks b n c n ->
    disjoint_blocks (expanded_roots_of_unity fs) (max_width fs) c n ->
    exists m1 m2,
      fft_fr m b a false n fs = Done (C_KZG_OK, m1) /\
      fft_fr m1 c b false n fs = Done (C_KZG_OK, m2) /\
      forall i, 0 <= i < n ->
        m2 (c + i) = fr_mul (m (a + (n - i) mod n)) (fr_from_uint64 n).
Proof.
  intros m a b c n fs Hv Htables Hab Hfb Hbc Hfc.
  destruct (valid_length_pow2 n fs Hv) as [k [-> [Hk Hn]]].
  destruct (settings_sub_tables m fs k Htables Hv) as [w [Hw [Hww [Hfwd Hrev]]]].
  pose proof Hv as [_ [Hle Hmax]].
  destruct (table_stride_fits (2 ^ Z.of_nat k) (max_width fs)) as [Hs Hfit]; try lia.
  assert (Afb : apart (expanded_roots_of_unity fs) (max_width fs / 2 ^ Z.of_nat k)
                  (2 ^ Z.of_nat k) b (2 ^ Z.of_nat k))
    by (apply (disjoint_apart _ _ _ (max_width fs)); [exact Hfb | lia..]).
  destruct (fft_fr_dft k m b a false fs w) as [m1 [E1 [F1 V1]]]; try assumption.
  { apply (disjoint_apart _ _ _ (2 ^ Z.of_nat k)); [exact Hab | lia..]. }
  destruct (fft_fr_dft k m1 c b false fs w) as [m2 [E2 [F2 V2]]]; try assumption.
  { apply (disjoint_apart _ _ _ (2 ^ Z.of_nat k)); [exact Hbc | lia..]. }
  { apply (disjoint_apart _ _ _ (max_width fs)); [exact Hfc | lia..]. }
  { intros j Hj. cbn [roots_in_use].
    rewrite (apart_outside _ _ _ _ _ m m1 j Afb F1 Hj). now apply Hfwd. }
  exists m1, m2. split; [exact E1|]. split; [exact E2|].
  intros i Hi. rewrite V2 by exact Hi. cbv zeta.
  rewrite (dft_ext w _ (fun j => dft w (fun l => m (a + l * 1)) (2 ^ Z.of_nat k) j))
    by (intros j Hj; rewrite Z.mul_1_r, V1 by lia; reflexivity).
  rewrite dft_twice by (try assumption; lia).
  now rewrite Z.mul_1_r.
Qed.

(** *** The inverse transform from the forward transform *)

Lemma dft_inverse_root w w' (x : Z -> fr_t) (n i : Z) :
  primitive_root w n -> fr_mul w w' = fr_one -> 0 < n -> 0 <= i < n ->
  dft w' x n i = dft w x n ((n - i) mod n).
Proof.
  intros Hw Hww Hn Hi.
  pose proof (Z.mod_pos_bound (n - i) n Hn) as Hrefl.
  assert (Hone : fr_pow w ((n - i) mod n + i) = fr_one).
  { apply (primitive_root_power_one w n); [lia | lia | exact Hw|].
    apply reflected_index; [lia | lia | reflexivity]. }
  unfold dft. apply fr_sum_ext. intros j Hj. f_equal.
  assert (E1 : fr_mul (fr_pow w (i * j)) (fr_pow w' (i * j)) = fr_one).
  { rewrite <- fr_pow_mul_base, Hww. apply fr_pow_one. }
  assert (E2 : fr_mul (fr_pow w (i * j)) (fr_pow w ((n - i) mod n * j)) = fr_one).
  { rewrite <- fr_pow_add by nia.
    replace (i * j + (n - i) mod n * j) with (((n - i) mod n + i) * j) by lia.
    rewrite fr_pow_mul by lia. rewrite Hone. apply fr_pow_one. }
  transitivity (fr_mul (fr_pow w' (i * j))
                  (fr_mul (fr_pow w (i * j)) (fr_pow w ((n - i) mod n * j))));
    [rewrite E2; ring|].
  transitivity (fr_mul (fr_mul (fr_pow w (i * j)) (fr_pow w' (i * j)))
                  (fr_pow w ((n - i) mod n * j))); [ring|].
  rewrite E1. ring.
Qed.

(** The two directions on the same input of a valid length [n]: the
    inverse transform leaves in [out[i]] what the forward transform leaves
    in [out[(n - i) mod n]], times the inverse of [n]. *)
Theorem fft_fr_inverse_reflects :
  forall m (out in_ n : Z) (fs : FFTSettings),
    valid_length n fs ->
    settings_tables m fs ->
    disjoint_blocks in_ n out n ->
    disjoint_blocks (expanded_roots_of_unity fs) (max_width fs) out n ->
    disjoint_blocks (reverse_roots_of_unity fs) (max_width fs) out n ->
    exists mf mi,
      fft_fr m out in_ false n fs = Done (C_KZG_OK, mf) /\
      fft_fr m out in_ true n fs = Done (C_KZG_OK, mi) /\
      forall i, 0 <= i < n ->
        mi (out + i) =
        fr_mul (mf (out + (n - i) mod n)) (fr_inv (fr_from_uint64 n)).
Proof.
  intros m out in_ n fs Hv Htables Hin Hfwd_out Hrev_out.
  destruct (valid_length_pow2 n fs Hv) as [k [-> [Hk Hn]]].
  destruct (settings_sub_tables m fs k Htables Hv) as [w [Hw [Hww [Hfwd Hrev]]]].
  pose proof Hv as [_ [Hle Hmax]].
  destruct (table_stride_fits (2 ^ Z.of_nat k) (max_width fs)) as [Hs Hfit]; try lia.
  assert (Ain : apart in_ 1 (2 ^ Z.of_nat k) out (2 ^ Z.of_nat k))
    by (apply (disjoint_apart _ _ _ (2 ^ Z.of_nat k)); [exact Hin | lia..]).
  destruct (fft_fr_dft k m out in_ false fs w) as [mf [Ef [_ Vf]]]; try assumption.
  { apply (disjoint_apart _ _ _ (max_width fs)); [exact Hfwd_out | lia..]. }
  destruct (fft_fr_dft k m out in_ true fs (fr_inv w)) as [mi [Ei [_ Vi]]];
    try assumption.
  { apply (disjoint_apart _ _ _ (max_width fs)); [exact Hrev_out | lia..]. }
  { now apply (primitive_root_inverse w). }
  exists mf, mi. split; [exact Ef|]. split; [exact Ei|].
  intros i Hi.
  pose proof (Z.mod_pos_bound (2 ^ Z.of_nat k - i) (2 ^ Z.of_nat k) ltac:(lia)) as Hrefl.
  rewrite Vi, Vf by lia. cbv zeta.
  now rewrite (dft_inverse_root w (fr_inv w)) by (try assumption; lia).
Qed.

End MoreField.

(** ** The further properties at work on the memory modulo 17 *)

(** An equation for every index below 2, and below 4. *)
Ltac for_each_index_2 :=
  let j := fresh "j" in
  let H := fresh "H" in
  intros j H; cbn in H;
  assert (j = 0 \/ j = 1) as [-> | ->] by lia; reflexivity.

Ltac for_each_index_4 :=
  let j := fresh "j" in
  let H := fresh "H" in
  intros j H; cbn in H;
  assert (j = 0 \/ j = 1 \/ j = 2 \/ j = 3) as [-> | [-> | [-> | ->]]] by lia;
  reflexivity.

Lemma fft_fr_slow_any_length_witness :
  fft_fr_slow F17.memory 12 8 1 0 1 3 (12 + 2) = direct_evaluation F17.memory 8 1 0 1 3 2.
Proof.
  refine (fft_fr_slow_any_length F17.memory 12 8 1 0 1 3 _ _ _ _ _ _ _ _ 2 _).
  - lia.
  - right. rewrite uint64_modulus_eq. lia.
  - lia.
  - reflexivity.
  - lia.
  - reflexivity.
  - apply F17_apart. lia.
  - apply F17_apart. lia.
  - lia.
Defined.

Lemma fft_fr_fast_determined_witness :
  exists m1 m1',
    fft_fr_fast 3 F17.memory 12 8 1 0 1 4 = Done m1 /\
    fft_fr_fast 3 F17.scrambled_memory 12 8 1 0 1 4 = Done m1' /\
    same_block 12 4 m1 m1'.
Proof.
  refine (fft_fr_fast_determined 2 3 F17.memory F17.scrambled_memory 12 8 1 0 1
            _ _ _ _ _ _ _ _ _ _).
  - lia.
  - reflexivity.
  - lia.
  - reflexivity.
  - lia.
  - reflexivity.
  - apply F17_apart. cbn. lia.
  - apply F17_apart. cbn. lia.
  - for_each_index_4.
  - for_each_index_2.
Defined.

Lemma fft_fr_linear_witness :
  exists ox oy oz,
    fft_fr F17.memory 12 8 true 4 F17.settings = Done (C_KZG_OK, ox) /\
    fft_fr F17.memory_y 12 8 true 4 F17.settings = Done (C_KZG_OK, oy) /\
    fft_fr F17.memory_z 12 8 true 4 F17.settings = Done (C_KZG_OK, oz) /\
    forall i, 0 <= i < 4 ->
      oz (12 + i) =
      fr_add (fr_mul (F17.of_Z 2) (ox (12 + i))) (fr_mul (F17.of_Z 3) (oy (12 + i))).
Proof.
  refine (fft_fr_linear (F17.of_Z 2) (F17.of_Z 3) F17.memory F17.memory_y F17.memory_z
            12 8 true 4 F17.settings _ _ _ _ _ _).
  - exact F17_valid_4.
  - apply F17_disjoint. lia.
  - apply F17_disjoint. cbn. lia.
  - for_each_index_4.
  - for_each_index_4.
  - for_each_index_4.
Defined.

Lemma fft_fr_evaluates_witness :
  exists w m',
    primitive_root w 4 /\
    powers_table F17.memory 0 (4 / 4) 4 w /\
    fft_fr F17.memory 12 8 false 4 F17.settings = Done (C_KZG_OK, m') /\
    forall i, 0 <= i < 4 -> m' (12 + i) = dft w (fun j => F17.memory (8 + j)) 4 i.
Proof.
  refine (fft_fr_evaluates F17.memory 12 8 false 4 F17.settings _ _ _ _).
  - exact F17_valid_4.
  - exact F17_settings_tables.
  - apply F17_disjoint. lia.
  - apply F17_disjoint. cbn. lia.
Defined.

Lemma fft_fr_round_trip_reverse_witness :
  exists m1 m2,
    fft_fr F17.memory 12 8 true 4 F17.settings = Done (C_KZG_OK, m1) /\
    fft_fr m1 16 12 false 4 F17.settings = Done (C_KZG_OK, m2) /\
    forall i, 0 <= i < 4 -> m2 (16 + i) = F17.memory (8 + i).
Proof.
  refine (fft_fr_round_trip_reverse F17.memory 12 8 16 4 F17.settings _ _ _ _ _ _ _).
  - exact F17_valid_4.
  - exact F17_settings_tables.
  - apply F17_disjoint. lia.
  - apply F17_disjoint. cbn. lia.
  - apply F17_disjoint. cbn. lia.
  - apply F17_disjoint. lia.
  - apply F17_disjoint. cbn. lia.
Defined.

Lemma fft_fr_checks_witness :
  (fft_fr F17.memory 12 8 false 3 F17.settings = Done (C_KZG_BADARGS, F17.memory) <->
     is_power_of_two 3 = false \/ max_width F17.settings < 3) /\
  (is_power_of_two 3 = true -> 3 <= max_width F17.settings ->
     exists m', fft_fr F17.memory 12 8 false 3 F17.settings = Done (C_KZG_OK, m')).
Proof.
  refine (fft_fr_checks F17.memory 12 8 false 3 F17.settings _ _).
  - lia.
  - rewrite uint64_modulus_eq. cbn. lia.
Defined.

Lemma fft_fr_twice_witness :
  exists m1 m2,
    fft_fr F17.memory 12 8 false 4 F17.settings = Done (C_KZG_OK, m1) /\
    fft_fr m1 16 12 false 4 F17.settings = Done (C_KZG_OK, m2) /\
    forall i, 0 <= i < 4 ->
      m2 (16 + i) = fr_mul (F17.memory (8 + (4 - i) mod 4)) (fr_from_uint64 4).
Proof.
  refine (fft_fr_twice F17.memory 8 12 16 4 F17.settings _ _ _ _ _ _).
  - exact F17_valid_4.
  - exact F17_settings_tables.
  - apply F17_disjoint. lia.
  - apply F17_disjoint. cbn. lia.
  - apply F17_disjoint. lia.
  - apply F17_disjoint. cbn. lia.
Defined.

Lemma fft_fr_inverse_reflects_witness :
  exists mf mi,
    fft_fr F17.memory 12 8 false 4 F17.settings = Done (C_KZG_OK, mf) /\
    fft_fr F17.memory 12 8 true 4 F17.settings = Done (C_KZG_OK, mi) /\
    forall i, 0 <= i < 4 ->
      mi (12 + i) = fr_mul (mf (12 + (4 - i) mod 4)) (fr_inv (fr_from_uint64 4)).
Proof.
  refine (fft_fr_inverse_reflects F17.memory 12 8 4 F17.settings _ _ _ _ _).
  - exact F17_valid_4.
  - exact F17_settings_tables.
  - apply F17_disjoint. lia.
  - apply F17_disjoint. cbn. lia.
  - apply F17_disjoint. cbn. lia.
Defined.

(** The forward transform twice, and the slow transform of length 3. *)
Example fft_fr_twice_run :
  F17.outcome
    (r <- fft_fr F17.memory 12 8 false 4 F17.settings ;;
     fft_fr (snd r) 16 12 false 4 F17.settings) 16 4
  = Done (C_KZG_OK, 12 :: 4 :: 16 :: 4 :: nil).
Proof. vm_compute. reflexivity. Qed.

Example fft_fr_slow_length_3_run :
  F17.dump (fft_fr_slow F17.memory 12 8 1 0 1 3) 12 4 = 8 :: 3 :: 1 :: 0 :: nil.
Proof. vm_compute. reflexivity. Qed.
